(** * searchfast: a shallow embedding of the core data types, the work queue,
      the LRU cache and the instant-search engine, with the properties the
      specification states about them.

    Layout: the definitions come first, one module per C++ namespace or
    class ([Double], [Core], [Utils], [Storage], [Engine]); the lemmas and
    theorems follow.

    Conventions.
    - [uint32_t], [uint64_t], [size_t] and [time_t] values are integers in [Z];
      where the source does arithmetic on them the wrap-around is written
      out ([wrap64]).
    - [double] values are IEEE 754 binary64 values, [spec_float] of the
      standard library, compared with [SFltb]; NaN and the infinities are
      part of the type.
    - [std::string] is [string], a [char] is an [ascii]; the character
      classes are those of the "C" locale.
    - Every member function guarded by the object's mutex is one atomic
      state transformer; a call that would sleep on the condition variable
      is the outcome [Waits]. *)

From Stdlib Require Import ZArith List String Ascii Bool Lia Permutation Sorted.
From Stdlib Require Import Floats.SpecFloat.
From stdpp Require Import gmap strings.
Import ListNotations.

Local Open Scope Z_scope.

(** ** Machine integers *)

Definition wrap64 (z : Z) : Z := z mod 2 ^ 64.

(** ** IEEE 754 doubles *)

Module Double.

Definition double : Type := spec_float.

(** [a < b] of C++; false as soon as one side is NaN. *)
Definition lt (a b : double) : bool := SFltb a b.

(** [a <= b] of C++; false as soon as one side is NaN. *)
Definition le (a b : double) : bool := SFleb a b.

(** The literals [0.0], [1.0] and [0.5]. *)
Definition zero : double := S754_zero false.
Definition one : double := S754_finite false 4503599627370496 (-52).
Definition half : double := S754_finite false 4503599627370496 (-53).

(** The literal [2.0]. *)
Definition two : double := S754_finite false 4503599627370496 (-51).

Definition is_nan (a : double) : bool :=
  match a with S754_nan => true | _ => false end.

(** [std::min(a, b)] is [(b < a) ? b : a] and [std::max(a, b)] is
    [(a < b) ? b : a]. *)
Definition std_min (a b : double) : double := if lt b a then b else a.
Definition std_max (a b : double) : double := if lt a b then b else a.

(** Doubles other than NaN are ordered like triples of integers: the class
    (infinite, finite or zero, by sign), then the exponent, then the
    mantissa. *)
Definition rank (a : double) : Z * Z * Z :=
  match a with
  | S754_nan => (0, 0, 0)
  | S754_infinity true => (-2, 0, 0)
  | S754_infinity false => (2, 0, 0)
  | S754_zero _ => (0, 0, 0)
  | S754_finite true m e => (-1, - e, - Z.pos m)
  | S754_finite false m e => (1, e, Z.pos m)
  end.

Definition lex (x y : Z * Z * Z) : Prop :=
  let '(a1, b1, c1) := x in
  let '(a2, b2, c2) := y in
  a1 < a2 \/ (a1 = a2 /\ (b1 < b2 \/ (b1 = b2 /\ c1 < c2))).

End Double.

(** ** <cctype> and <string> *)

Module CType.

Definition code (c : ascii) : N := N_of_ascii c.

Definition isupper (c : ascii) : bool := ((65 <=? code c) && (code c <=? 90))%N.
Definition islower (c : ascii) : bool := ((97 <=? code c) && (code c <=? 122))%N.
Definition isdigit (c : ascii) : bool := ((48 <=? code c) && (code c <=? 57))%N.
Definition isalnum (c : ascii) : bool := isupper c || islower c || isdigit c.
Definition isspace (c : ascii) : bool :=
  ((code c =? 32) || ((9 <=? code c) && (code c <=? 13)))%N.

Definition tolower (c : ascii) : ascii :=
  if isupper c then ascii_of_N (code c + 32) else c.

(** [std::transform(s.begin(), s.end(), s.begin(), ::tolower)]. *)
Fixpoint transform_tolower (s : string) : string :=
  match s with
  | EmptyString => EmptyString
  | String c s' => String (tolower c) (transform_tolower s')
  end.

(** [s += c]. *)
Definition push_back (s : string) (c : ascii) : string :=
  String.append s (String c EmptyString).

Definition empty (s : string) : bool :=
  match s with EmptyString => true | _ => false end.

(** [prefix p s]: [s] starts with [p]. *)
Fixpoint prefix (p s : string) : bool :=
  match p, s with
  | EmptyString, _ => true
  | String a p', String b s' => Ascii.eqb a b && prefix p' s'
  | String _ _, EmptyString => false
  end.

(** [s.find(p)]: the first position at which [p] occurs in [s];
    [None] is [std::string::npos]. *)
Fixpoint find (s p : string) : option nat :=
  if prefix p s then Some O
  else match s with
       | EmptyString => None
       | String _ s' => option_map S (find s' p)
       end.

(** The loop [while (iss >> token)]: the maximal runs of characters that
    are not white space, in order.  [cur] is the token being read. *)
Fixpoint extract (cur : string) (s : string) : list string :=
  match s with
  | EmptyString => if empty cur then [] else [cur]
  | String c s' =>
      if isspace c
      then (if empty cur then extract EmptyString s'
            else cur :: extract EmptyString s')
      else extract (push_back cur c) s'
  end.

End CType.

(** ** core/types.h and core/types.cpp *)

Module Core.

Import Double CType.

Inductive FileType := Unknown | File | Directory | SymbolicLink | HardLink.
Inductive SearchMode := Exact | Fuzzy | Wildcard | Regex.
Inductive SortOrder := Name | Size | Modified | Accessed | Relevance.
Inductive Theme := Light | Dark | System.

Record SizeRange := { minSize : Z; maxSize : Z }.
Record DateRange := { startDate : Z; endDate : Z }.

Record FileEntry := {
  id : Z;
  fullPath : string;
  fileName : string;
  extension : string;
  size : Z;
  lastModified : Z;
  lastAccessed : Z;
  type : FileType;
  attributes : Z;
  normalizedName : string;
  tokens : list string;
  accessCount : Z;
  relevanceScore : double;
  parentId : Z;
  driveId : Z
}.

Definition with_index_fields (e : FileEntry) (n : string) (ts : list string)
  : FileEntry :=
  {| id := id e; fullPath := fullPath e; fileName := fileName e;
     extension := extension e; size := size e;
     lastModified := lastModified e; lastAccessed := lastAccessed e;
     type := type e; attributes := attributes e;
     normalizedName := n; tokens := ts;
     accessCount := accessCount e; relevanceScore := relevanceScore e;
     parentId := parentId e; driveId := driveId e |}.

(** The characters [c == '.' || c == '_' || c == '-' || c == ' ']. *)
Definition is_separator (c : ascii) : bool :=
  (Ascii.eqb c "." || Ascii.eqb c "_" || Ascii.eqb c "-" || Ascii.eqb c " ")%char.

(** One turn of the loop [for (char c : fileName)]. *)
Definition normalize_char (normalizedName : string) (c : ascii) : string :=
  if isalnum c then push_back normalizedName (tolower c)
  else if is_separator c then push_back normalizedName " "%char
  else normalizedName.

Fixpoint normalize_loop (normalizedName : string) (rest : string) : string :=
  match rest with
  | EmptyString => normalizedName
  | String c rest' => normalize_loop (normalize_char normalizedName c) rest'
  end.

(** [FileEntry::updateTokens]. *)
Definition updateTokens (e : FileEntry) : FileEntry :=
  if empty (fileName e) then with_index_fields e EmptyString []
  else
    let normalizedName := normalize_loop EmptyString (fileName e) in
    let tokens := extract EmptyString normalizedName in
    let tokens :=
      if negb (empty (extension e))
      then tokens ++ [transform_tolower (extension e)]
      else tokens in
    with_index_fields e normalizedName tokens.

(** The normalized name in the specification's words: lower case,
    alphanumerics kept, every run of separators collapsed to one space.
    [in_run] tells that the previous character was a separator.  Characters
    that are neither are left out, as in the source. *)
Fixpoint collapse_runs (in_run : bool) (s : string) : string :=
  match s with
  | EmptyString => EmptyString
  | String c s' =>
      if isalnum c then String (tolower c) (collapse_runs false s')
      else if is_separator c
           then (if in_run then collapse_runs true s'
                 else String " "%char (collapse_runs true s'))
           else collapse_runs in_run s'
  end.

Definition normalized_name_spec (name : string) : string :=
  collapse_runs false name.

(** What the loop of [updateTokens] computes, character by character: an
    alphanumeric gives its lower-case form, each separator gives one space
    of its own, any other character gives nothing. *)
Fixpoint normalize_each (s : string) : string :=
  match s with
  | EmptyString => EmptyString
  | String c s' =>
      if isalnum c then String (tolower c) (normalize_each s')
      else if is_separator c then String " "%char (normalize_each s')
      else normalize_each s'
  end.

(** [FileEntry() = default], then the id and the two name fields set. *)
Definition entry_named (id : Z) (fileName extension : string) : FileEntry :=
{| id := id; fullPath := EmptyString; fileName := fileName;
   extension := extension; size := 0; lastModified := 0;
   lastAccessed := 0; type := Unknown; attributes := 0;
   normalizedName := EmptyString; tokens := [];
   accessCount := 0; relevanceScore := S754_zero false;
   parentId := 0; driveId := 0 |}.

(** How many characters of [s] satisfy [p]. *)
Fixpoint count_chars (p : ascii -> bool) (s : string) : nat :=
  match s with
  | EmptyString => O
  | String c s' => (if p c then 1 else 0) + count_chars p s'
  end.

Definition is_space (c : ascii) : bool := Ascii.eqb c " ".

(** Two spaces in a row. *)
Fixpoint has_double_space (s : string) : bool :=
  match s with
  | String a ((String b _) as s') =>
      (Ascii.eqb a " " && Ascii.eqb b " ")%char || has_double_space s'
  | _ => false
  end.

Record SearchQuery := {
  query : string;
  mode : SearchMode;
  includeDrives : list string;
  excludePaths : list string;
  fileTypes : list string;
  sizeRange : SizeRange;
  dateRange : DateRange;
  maxResults : Z;
  sortOrder : SortOrder;
  caseSensitive : bool;
  fuzzyThreshold : double
}.

(** The threshold range in the specification's words: a value that lies in
    [[0, 1]], that is, a number at least 0 and at most 1.  NaN is no such
    number. *)
Definition in_unit_interval (f : double) : bool := le zero f && le f one.

(** A query that differs from the default-constructed one by its text and
    its threshold. *)
Definition query_with (text : string) (threshold : double) : SearchQuery :=
  {| query := text; mode := Fuzzy; includeDrives := [];
     excludePaths := []; fileTypes := [];
     sizeRange := {| minSize := 0; maxSize := 2 ^ 64 - 1 |};
     dateRange := {| startDate := 0; endDate := 0 |};
     maxResults := 1000; sortOrder := Relevance;
     caseSensitive := false; fuzzyThreshold := threshold |}.

(** [SearchQuery::isValid]. *)
Definition isValid (q : SearchQuery) : bool :=
  if empty (query q) then false
  else if maxResults q =? 0 then false
  else if lt (fuzzyThreshold q) zero || lt one (fuzzyThreshold q) then false
  else true.

Record SearchResult := {
  entry : FileEntry;
  score : double;
  highlights : list (Z * Z)
}.

Record SearchResults := {
  results_ : list SearchResult;
  query_ : string;
  searchTime_ : Z;
  totalMatches_ : Z
}.

(** [std::sort(first, last, comp)] on a short range: both libstdc++ (up to
    16 elements) and the MSVC library (up to 32) run the same insertion sort.
    It takes the elements from left to right; an element [x] with
    [comp x first] goes to the very front, any other is moved towards the
    front past every element [y] with [comp x y], up to the first one
    without.  On longer ranges the libraries start with quicksort partitions,
    and only the order of elements that [comp] does not separate can differ
    from what is computed here.

    [sorted_rev] is the part already sorted, last element first, so that its
    last element is [*first]. *)
Section StdSort.
Context {A : Type} (comp : A -> A -> bool).

(** [__unguarded_linear_insert]. *)
Fixpoint linear_insert (x : A) (sorted_rev : list A) : list A :=
  match sorted_rev with
  | [] => [x]
  | y :: before => if comp x y then y :: linear_insert x before
                   else x :: y :: before
  end.

(** One turn of the loop of [__insertion_sort]. *)
Definition insert_next (x : A) (sorted_rev : list A) : list A :=
  match last sorted_rev with
  | Some first =>
      if comp x first then sorted_rev ++ [x]
      else linear_insert x sorted_rev
  | None => [x]
  end.

Fixpoint insertion_loop (sorted_rev : list A) (todo : list A) : list A :=
  match todo with
  | [] => sorted_rev
  | x :: todo' => insertion_loop (insert_next x sorted_rev) todo'
  end.

Definition std_sort (l : list A) : list A := rev (insertion_loop [] l).

(** [comp] does not put [x] before [y]. *)
Definition not_before (x y : A) : Prop := comp x y = false.
End StdSort.

(** The comparator of [sortByScore]: [a.score > b.score]. *)
Definition by_score (a b : SearchResult) : bool := lt (score b) (score a).

(** [SearchResults::sortByScore]. *)
Definition sortByScore (r : SearchResults) : SearchResults :=
  {| results_ := std_sort by_score (results_ r);
     query_ := query_ r; searchTime_ := searchTime_ r;
     totalMatches_ := totalMatches_ r |}.

(** [SearchResult(const FileEntry& e, double s)] and
    [SearchResults(const std::string& query)] at time [now]. *)
Definition SearchResult_of (e : FileEntry) (s : double) : SearchResult :=
{| entry := e; score := s; highlights := [] |}.

Definition SearchResults_of (query : string) (now : Z) : SearchResults :=
{| results_ := []; query_ := query; searchTime_ := now; totalMatches_ := 0 |}.

(** [addResult(entry, score)]. *)
Definition addResult (e : FileEntry) (s : double) (r : SearchResults)
  : SearchResults :=
{| results_ := results_ r ++ [SearchResult_of e s];
   query_ := query_ r; searchTime_ := searchTime_ r;
   totalMatches_ := totalMatches_ r |}.

(** The tie-break of the specification: among equal scores the smaller
    normalized name first, and the smaller id among equal names. *)
Definition string_ltb (a b : string) : bool :=
  match String.compare a b with Lt => true | _ => false end.

Definition tie_ordered (a b : SearchResult) : bool :=
  string_ltb (normalizedName (entry a)) (normalizedName (entry b))
  || (String.eqb (normalizedName (entry a)) (normalizedName (entry b))
      && (id (entry a) <=? id (entry b))).

Record AppSettings := {
  as_includeDrives : list string;
  as_excludePaths : list string;
  excludeExtensions : list string;
  indexHiddenFiles : bool;
  indexSystemFiles : bool;
  defaultSearchMode : SearchMode;
  maxSearchResults : Z;
  enableFuzzySearch : bool;
  as_fuzzyThreshold : double;
  startMinimized : bool;
  showInSystemTray : bool;
  hotkey : string;
  uiTheme : Theme;
  indexingThreads : Z;
  maxMemoryUsage : Z;
  enableCache : bool;
  cacheSize : Z;
  databasePath : string;
  enableWAL : bool;
  cachePages : Z
}.

(** [AppSettings::validate]. *)
Definition validate (s : AppSettings) : bool :=
  if (indexingThreads s =? 0) || (32 <? indexingThreads s) then false
  else if (maxMemoryUsage s <? 64) || (8192 <? maxMemoryUsage s) then false
  else if maxMemoryUsage s <? cacheSize s then false
  else if lt (as_fuzzyThreshold s) zero || lt one (as_fuzzyThreshold s) then false
  else if (maxSearchResults s =? 0) || (100000 <? maxSearchResults s) then false
  else true.

(** The lambda [removeEmpty] of [sanitize]. *)
Definition removeEmpty (vec : list string) : list string :=
  List.filter (fun s => negb (empty s)) vec.

(** [AppSettings::sanitize]; the assignments run in the source's order, so
    [cacheSize] is clamped against the new [maxMemoryUsage]. *)
Definition sanitize (s : AppSettings) : AppSettings :=
  let indexingThreads' := Z.max 1 (Z.min 32 (indexingThreads s)) in
  let maxMemoryUsage' := Z.max 64 (Z.min 8192 (maxMemoryUsage s)) in
  let cacheSize' := Z.max 10 (Z.min maxMemoryUsage' (cacheSize s)) in
  let fuzzyThreshold' := std_max zero (std_min one (as_fuzzyThreshold s)) in
  let maxSearchResults' := Z.max 1 (Z.min 100000 (maxSearchResults s)) in
  {| as_includeDrives := removeEmpty (as_includeDrives s);
     as_excludePaths := removeEmpty (as_excludePaths s);
     excludeExtensions := removeEmpty (excludeExtensions s);
     indexHiddenFiles := indexHiddenFiles s;
     indexSystemFiles := indexSystemFiles s;
     defaultSearchMode := defaultSearchMode s;
     maxSearchResults := maxSearchResults';
     enableFuzzySearch := enableFuzzySearch s;
     as_fuzzyThreshold := fuzzyThreshold';
     startMinimized := startMinimized s;
     showInSystemTray := showInSystemTray s;
     hotkey := hotkey s;
     uiTheme := uiTheme s;
     indexingThreads := indexingThreads';
     maxMemoryUsage := maxMemoryUsage';
     enableCache := enableCache s;
     cacheSize := cacheSize';
     databasePath := databasePath s;
     enableWAL := enableWAL s;
     cachePages := cachePages s |}.

(** [FileEntry::getDisplayName]. *)
Definition getDisplayName (e : FileEntry) : string :=
  if empty (fileName e) then fullPath e else fileName e.

(** The comparators of [sortByName], [sortBySize] and [sortByModified]:
    [a.entry.fileName < b.entry.fileName] (the order of [std::string], byte
    by byte, a proper prefix first), [a.entry.size > b.entry.size] and
    [a.entry.lastModified > b.entry.lastModified]. *)
Definition by_name (a b : SearchResult) : bool :=
  string_ltb (fileName (entry a)) (fileName (entry b)).

Definition by_size (a b : SearchResult) : bool :=
  size (entry b) <? size (entry a).

Definition by_modified (a b : SearchResult) : bool :=
  lastModified (entry b) <? lastModified (entry a).

Definition with_results (r : SearchResults) (l : list SearchResult)
  : SearchResults :=
  {| results_ := l; query_ := query_ r; searchTime_ := searchTime_ r;
     totalMatches_ := totalMatches_ r |}.

(** [SearchResults::sortByName], [sortBySize] and [sortByModified]. *)
Definition sortByName (r : SearchResults) : SearchResults :=
  with_results r (std_sort by_name (results_ r)).

Definition sortBySize (r : SearchResults) : SearchResults :=
  with_results r (std_sort by_size (results_ r)).

Definition sortByModified (r : SearchResults) : SearchResults :=
  with_results r (std_sort by_modified (results_ r)).

(** The literal [0.6]. *)
Definition six_tenths : double := S754_finite false 5404319552844595 (-53).

(** [AppSettings::setDefaults]; [hardware_concurrency] is what
    [std::thread::hardware_concurrency()] returns. *)
Definition setDefaults (hardware_concurrency : Z) (s : AppSettings)
  : AppSettings :=
  {| as_includeDrives := [];
     as_excludePaths :=
       [ "C:\Windows\System32"; "C:\Windows\SysWOW64";
         "C:\$Recycle.Bin"; "C:\System Volume Information" ]%string;
     excludeExtensions := [ "tmp"; "temp"; "log"; "cache"; "bak" ]%string;
     indexHiddenFiles := false;
     indexSystemFiles := false;
     defaultSearchMode := Fuzzy;
     maxSearchResults := 1000;
     enableFuzzySearch := true;
     as_fuzzyThreshold := six_tenths;
     startMinimized := false;
     showInSystemTray := true;
     hotkey := "Ctrl+Alt+F";
     uiTheme := System;
     indexingThreads := Z.max 2 hardware_concurrency;
     maxMemoryUsage := 512;
     enableCache := true;
     cacheSize := 100;
     databasePath := "fastfilesearch.db";
     enableWAL := true;
     cachePages := 2000 |}.

(** A token of a file name: not empty, digits and lower-case letters only. *)
Fixpoint all_chars (p : ascii -> bool) (s : string) : bool :=
  match s with
  | EmptyString => true
  | String c s' => p c && all_chars p s'
  end.

Definition lower_alnum (c : ascii) : bool := islower c || isdigit c.

Definition name_token (t : string) : bool :=
  negb (empty t) && all_chars lower_alnum t.

(** Spaces and lower-case alphanumerics are all a normalized name holds. *)
Definition normalized_char (c : ascii) : bool := is_space c || lower_alnum c.

End Core.

(** ** utils/thread_safe_queue.h *)

Module Utils.

(** What a call that may sleep on the condition variable does in a given
    state: it waits for another thread, or it returns [r] and leaves the
    object in state [q]. *)
Inductive Outcome (R Q : Type) :=
| Waits
| Returns (r : R) (q : Q).
Arguments Waits {R Q}.
Arguments Returns {R Q} r q.

Section ThreadSafeQueue.
Context {T : Type}.

(** [queue_] front first, and the [shutdown_] flag. *)
Record ThreadSafeQueue := {
  queue_ : list T;
  shutdown_ : bool
}.

(** [ThreadSafeQueue()]. *)
Definition create : ThreadSafeQueue :=
  {| queue_ := []; shutdown_ := false |}.

(** [void push(const T&)], [void push(T&&)] and [emplace]: the three
    have the same body.  The flag is read before the mutex is taken; the
    call is one step here.  The function returns nothing: [unit]. *)
Definition push (q : ThreadSafeQueue) (item : T) : unit * ThreadSafeQueue :=
  if shutdown_ q then (tt, q)
  else (tt, {| queue_ := queue_ q ++ [item]; shutdown_ := shutdown_ q |}).

(** [bool pop(T& item)]: the result is the returned flag with the value
    of [item] after the call. *)
Definition pop_into (q : ThreadSafeQueue) (item : T)
  : Outcome (bool * T) ThreadSafeQueue :=
  match queue_ q with
  | [] =>
      if negb (shutdown_ q) then Waits
      else (* [shutdown_ && queue_.empty()] *) Returns (false, item) q
  | front :: rest =>
      Returns (true, front) {| queue_ := rest; shutdown_ := shutdown_ q |}
  end.

(** [std::shared_ptr<T> pop()]; [None] is the empty pointer. *)
Definition pop (q : ThreadSafeQueue) : Outcome (option T) ThreadSafeQueue :=
  match queue_ q with
  | [] =>
      if negb (shutdown_ q) then Waits
      else Returns None q
  | front :: rest =>
      Returns (Some front) {| queue_ := rest; shutdown_ := shutdown_ q |}
  end.

(** [std::shared_ptr<T> tryPop()]. *)
Definition tryPop (q : ThreadSafeQueue) : option T * ThreadSafeQueue :=
  match queue_ q with
  | [] => (None, q)
  | front :: rest =>
      (Some front, {| queue_ := rest; shutdown_ := shutdown_ q |})
  end.

Definition empty (q : ThreadSafeQueue) : bool :=
  match queue_ q with [] => true | _ => false end.

Definition size (q : ThreadSafeQueue) : Z := Z.of_nat (length (queue_ q)).

Definition clear (q : ThreadSafeQueue) : ThreadSafeQueue :=
  {| queue_ := []; shutdown_ := shutdown_ q |}.

Definition shutdown (q : ThreadSafeQueue) : ThreadSafeQueue :=
  {| queue_ := queue_ q; shutdown_ := true |}.

Definition isShutdown (q : ThreadSafeQueue) : bool := shutdown_ q.

Definition restart (q : ThreadSafeQueue) : ThreadSafeQueue :=
  {| queue_ := queue_ q; shutdown_ := false |}.

(** A history of calls made on one queue, used to say "shutdown has been
    called and not yet restarted". *)
Inductive Call :=
| CallPush (item : T)
| CallPop
| CallTryPop
| CallClear
| CallShutdown
| CallRestart.

Definition is_restart (c : Call) : bool :=
  match c with CallRestart => true | _ => false end.

(** The state a call leaves; a [pop] that waits leaves it as it is. *)
Definition after (q : ThreadSafeQueue) (c : Call) : ThreadSafeQueue :=
  match c with
  | CallPush item => snd (push q item)
  | CallPop => match pop q with Waits => q | Returns _ q' => q' end
  | CallTryPop => snd (tryPop q)
  | CallClear => clear q
  | CallShutdown => shutdown q
  | CallRestart => restart q
  end.

Definition after_all (q : ThreadSafeQueue) (cs : list Call) : ThreadSafeQueue :=
  fold_left after cs q.

(** No call of [cs] is a [restart]. *)
Definition no_restart (cs : list Call) : Prop :=
  Forall (fun c => is_restart c = false) cs.

(** [n] calls of [tryPop] in a row, with what each one returned. *)
Fixpoint tryPop_n (n : nat) (q : ThreadSafeQueue)
  : list (option T) * ThreadSafeQueue :=
  match n with
  | O => ([], q)
  | S n' =>
      let (r, q1) := tryPop q in
      let (rs, q2) := tryPop_n n' q1 in
      (r :: rs, q2)
  end.

End ThreadSafeQueue.
Arguments ThreadSafeQueue T : clear implicits.
Arguments Call T : clear implicits.

End Utils.

(** ** storage/cache_manager.h: [LRUCache<Key, Value>] *)

Module Storage.

Section LRUCache.
Context {Key : Type} `{Countable Key} {Value : Type}.

Record CacheNode := {
  key : Key;
  value : Value;
  accessTime : Z
}.

(** [nodeList_] is the list front (most recently used) first.
    [hashMap_] maps a key to an iterator into [nodeList_]; the iterator
    stored under [k] always designates the node whose [key] is [k] (it is
    stored when that node is created, and list iterators stay valid until
    their node is erased), so the map is represented by its set of keys
    and an iterator by the key of its node. *)
Record LRUCache := {
  nodeList_ : list CacheNode;
  hashMap_ : gset Key;
  capacity_ : Z;
  currentSize_ : Z;
  hitCount_ : Z;
  missCount_ : Z;
  evictionCount_ : Z
}.

(** [explicit LRUCache(size_t capacity)]. *)
Definition create (capacity : Z) : LRUCache :=
  {| nodeList_ := []; hashMap_ := ∅;
     capacity_ := if capacity =? 0 then 1 else capacity;
     currentSize_ := 0; hitCount_ := 0; missCount_ := 0;
     evictionCount_ := 0 |}.

Definition has_key (k : Key) (n : CacheNode) : bool := bool_decide (key n = k).

(** [*it] for the iterator stored under [k]. *)
Definition node_of (k : Key) (l : list CacheNode) : option CacheNode :=
  List.find (has_key k) l.

(** [nodeList_.erase(it)]. *)
Definition erase (k : Key) (l : list CacheNode) : list CacheNode :=
  List.filter (fun n => negb (has_key k n)) l.

(** [it->value = value; it->accessTime = now] *)
Definition assign (k : Key) (v : Value) (now : Z) (l : list CacheNode)
  : list CacheNode :=
  map (fun n => if has_key k n
                then {| key := key n; value := v; accessTime := now |}
                else n) l.

(** [it->accessTime = now] *)
Definition touch (k : Key) (now : Z) (l : list CacheNode) : list CacheNode :=
  map (fun n => if has_key k n
                then {| key := key n; value := value n; accessTime := now |}
                else n) l.

(** [moveToFront(it)]: nothing when [it] is [begin()], else the node is
    spliced to the front. *)
Definition moveToFront (k : Key) (l : list CacheNode) : list CacheNode :=
  match l with
  | first :: _ =>
      if has_key k first then l
      else match node_of k l with
           | Some n => n :: erase k l
           | None => l
           end
  | [] => l
  end.

(** [evictLRU()]. *)
Definition evictLRU (c : LRUCache) : LRUCache :=
  match last (nodeList_ c) with
  | Some lastIt =>
      {| nodeList_ := removelast (nodeList_ c);
         hashMap_ := hashMap_ c ∖ {[ key lastIt ]};
         capacity_ := capacity_ c;
         currentSize_ := wrap64 (currentSize_ c - 1);
         hitCount_ := hitCount_ c; missCount_ := missCount_ c;
         evictionCount_ := wrap64 (evictionCount_ c + 1) |}
  | None => c
  end.

(** [put(key, value)]; [now] is the reading of the steady clock. *)
Definition put (k : Key) (v : Value) (now : Z) (c : LRUCache) : LRUCache :=
  if decide (k ∈ hashMap_ c) then
    {| nodeList_ := moveToFront k (assign k v now (nodeList_ c));
       hashMap_ := hashMap_ c;
       capacity_ := capacity_ c; currentSize_ := currentSize_ c;
       hitCount_ := hitCount_ c; missCount_ := missCount_ c;
       evictionCount_ := evictionCount_ c |}
  else
    let c := if capacity_ c <=? currentSize_ c then evictLRU c else c in
    {| nodeList_ := {| key := k; value := v; accessTime := now |} :: nodeList_ c;
       hashMap_ := {[ k ]} ∪ hashMap_ c;
       capacity_ := capacity_ c;
       currentSize_ := wrap64 (currentSize_ c + 1);
       hitCount_ := hitCount_ c; missCount_ := missCount_ c;
       evictionCount_ := evictionCount_ c |}.

(** [get(key)], both overloads: the value found, if any. *)
Definition get (k : Key) (now : Z) (c : LRUCache) : option Value * LRUCache :=
  if decide (k ∈ hashMap_ c) then
    (value <$> node_of k (nodeList_ c),
     {| nodeList_ := moveToFront k (touch k now (nodeList_ c));
        hashMap_ := hashMap_ c;
        capacity_ := capacity_ c; currentSize_ := currentSize_ c;
        hitCount_ := wrap64 (hitCount_ c + 1); missCount_ := missCount_ c;
        evictionCount_ := evictionCount_ c |})
  else
    (None,
     {| nodeList_ := nodeList_ c; hashMap_ := hashMap_ c;
        capacity_ := capacity_ c; currentSize_ := currentSize_ c;
        hitCount_ := hitCount_ c; missCount_ := wrap64 (missCount_ c + 1);
        evictionCount_ := evictionCount_ c |}).

Definition contains (k : Key) (c : LRUCache) : bool :=
  bool_decide (k ∈ hashMap_ c).

(** [remove(key)]. *)
Definition remove (k : Key) (c : LRUCache) : bool * LRUCache :=
  if decide (k ∈ hashMap_ c) then
    (true,
     {| nodeList_ := erase k (nodeList_ c);
        hashMap_ := hashMap_ c ∖ {[ k ]};
        capacity_ := capacity_ c;
        currentSize_ := wrap64 (currentSize_ c - 1);
        hitCount_ := hitCount_ c; missCount_ := missCount_ c;
        evictionCount_ := evictionCount_ c |})
  else (false, c).

(** [clear()]. *)
Definition clear (c : LRUCache) : LRUCache :=
  {| nodeList_ := []; hashMap_ := ∅;
     capacity_ := capacity_ c; currentSize_ := 0;
     hitCount_ := hitCount_ c; missCount_ := missCount_ c;
     evictionCount_ := evictionCount_ c |}.

Definition size (c : LRUCache) : Z := currentSize_ c.
Definition capacity (c : LRUCache) : Z := capacity_ c.
Definition empty (c : LRUCache) : bool := currentSize_ c =? 0.
Definition getEvictionCount (c : LRUCache) : Z := evictionCount_ c.

(** The loop [while (currentSize_ > capacity_) evictLRU();] of [resize].
    An eviction on an empty list changes nothing, so with the condition
    still true the source loops for ever: that is [None].  Every other
    turn shortens the list, so [fuel] one above its length is never the
    reason for [None]. *)
Fixpoint resize_loop (fuel : nat) (c : LRUCache) : option LRUCache :=
  if capacity_ c <? currentSize_ c then
    match fuel with
    | O => None
    | S fuel' => resize_loop fuel' (evictLRU c)
    end
  else Some c.

(** [resize(newCapacity)]. *)
Definition resize (newCapacity : Z) (c : LRUCache) : option LRUCache :=
  let c := {| nodeList_ := nodeList_ c; hashMap_ := hashMap_ c;
              capacity_ := Z.max newCapacity 1;
              currentSize_ := currentSize_ c;
              hitCount_ := hitCount_ c; missCount_ := missCount_ c;
              evictionCount_ := evictionCount_ c |} in
  resize_loop (S (length (nodeList_ c))) c.

(** The calls of the public interface that change the cache. *)
Inductive Call :=
| CallPut (k : Key) (v : Value) (now : Z)
| CallGet (k : Key) (now : Z)
| CallRemove (k : Key)
| CallClear
| CallResize (newCapacity : Z).

Definition after (c : LRUCache) (op : Call) : option LRUCache :=
  match op with
  | CallPut k v now => Some (put k v now c)
  | CallGet k now => Some (snd (get k now c))
  | CallRemove k => Some (snd (remove k c))
  | CallClear => Some (clear c)
  | CallResize n => resize n c
  end.

Fixpoint after_all (c : LRUCache) (ops : list Call) : option LRUCache :=
  match ops with
  | [] => Some c
  | op :: ops' =>
      match after c op with
      | Some c' => after_all c' ops'
      | None => None
      end
  end.

(** An argument of type [size_t]. *)
Definition is_size_t (z : Z) : Prop := 0 <= z < 2 ^ 64.

Definition call_args_ok (op : Call) : Prop :=
  match op with
  | CallResize n => is_size_t n
  | _ => True
  end.

(** The representation invariant of the class: the list and the map hold
    the same keys, once each, [currentSize_] counts them, and the capacity is
    a positive [size_t]. *)
Definition keys (c : LRUCache) : list Key := key <$> nodeList_ c.

Record coherent (c : LRUCache) : Prop := {
  keys_nodup : NoDup (keys c);
  keys_map : forall k, k ∈ hashMap_ c <-> k ∈ keys c;
  size_counts : currentSize_ c = Z.of_nat (length (nodeList_ c));
  size_range : currentSize_ c < 2 ^ 64;
  capacity_range : 1 <= capacity_ c < 2 ^ 64
}.

(** Between two calls the size is moreover within the capacity. *)
Definition consistent (c : LRUCache) : Prop :=
  coherent c /\ currentSize_ c <= capacity_ c.

Definition getHitCount (c : LRUCache) : Z := hitCount_ c.
Definition getMissCount (c : LRUCache) : Z := missCount_ c.

(** [resetStatistics()]. *)
Definition resetStatistics (c : LRUCache) : LRUCache :=
  {| nodeList_ := nodeList_ c; hashMap_ := hashMap_ c;
     capacity_ := capacity_ c; currentSize_ := currentSize_ c;
     hitCount_ := 0; missCount_ := 0; evictionCount_ := 0 |}.

(** The value the cache holds for [k], if any: [it->second->value] for the
    iterator found under [k]. *)
Definition stored (k : Key) (c : LRUCache) : option Value :=
  value <$> node_of k (nodeList_ c).

End LRUCache.
Arguments CacheNode Key Value : clear implicits.
Arguments LRUCache Key {_ _} Value.
Arguments Call Key Value : clear implicits.

End Storage.

(** ** FastFileSearch.cpp: [FastFileSearchEngine] *)

Module Engine.

Import CType.

Record FileInfo := {
  path : string;
  name : string;
  lowerName : string;
  size : Z
}.

(** The fields of [WIN32_FIND_DATAA] the engine reads. *)
Record WIN32_FIND_DATAA := {
  dwFileAttributes : Z;
  nFileSizeHigh : Z;
  nFileSizeLow : Z;
  cFileName : string
}.

(** The attribute bits, as <winnt.h> defines them. *)
Definition FILE_ATTRIBUTE_HIDDEN : Z := 2.
Definition FILE_ATTRIBUTE_SYSTEM : Z := 4.
Definition FILE_ATTRIBUTE_DIRECTORY : Z := 16.

(** [attrs & bit] as a condition. *)
Definition has_attribute (attrs bit : Z) : bool := negb (Z.land attrs bit =? 0).

(** What the file system shows below a path: the entries [FindFirstFileExA]
    and [FindNextFileA] deliver for it, in order, each with what lies below
    it.  No entry at all stands for [INVALID_HANDLE_VALUE]. *)
#[local] Set Warnings "-register-all".
Inductive Directory :=
| Dir (found : list (WIN32_FIND_DATAA * Directory)).
#[local] Set Warnings "register-all".

(** The part of the engine the crawl writes. *)
Record Index := {
  m_fileIndex : list FileInfo;
  m_indexedFiles : Z
}.

Definition backslash : string := String (ascii_of_N 92) EmptyString.

(** The names the crawl never descends into. *)
Definition system_roots : list string :=
  [ "System Volume Information"; "$Recycle.Bin"; "Windows";
    "Program Files"; "Program Files (x86)"; "ProgramData" ]%string.

(** The condition under which [IndexDirectoryOptimized] calls itself on an
    entry that has the directory bit. *)
Definition descends (findData : WIN32_FIND_DATAA) : bool :=
  let fileName := cFileName findData in
  negb (has_attribute (dwFileAttributes findData) FILE_ATTRIBUTE_SYSTEM)
  && negb (has_attribute (dwFileAttributes findData) FILE_ATTRIBUTE_HIDDEN)
  && negb (String.eqb fileName "System Volume Information")
  && negb (String.eqb fileName "$Recycle.Bin")
  && negb (String.eqb fileName "Windows")
  && negb (String.eqb fileName "Program Files")
  && negb (String.eqb fileName "Program Files (x86)")
  && negb (String.eqb fileName "ProgramData").

(** The [else] branch: the file is appended to the index and counted. *)
Definition add_file (fullPath : string) (findData : WIN32_FIND_DATAA)
           (ix : Index) : Index :=
  let fileInfo :=
    {| path := fullPath;
       name := cFileName findData;
       lowerName := transform_tolower (cFileName findData);
       size := Z.lor (Z.shiftl (nFileSizeHigh findData) 32)
                     (nFileSizeLow findData) |} in
  {| m_fileIndex := m_fileIndex ix ++ [fileInfo];
     m_indexedFiles := wrap64 (m_indexedFiles ix + 1) |}.

(** [IndexDirectoryOptimized(path)].  [m_shouldStop] is the value the stop
    flag has during the call. *)
Fixpoint IndexDirectoryOptimized (m_shouldStop : bool) (path : string)
         (d : Directory) (ix : Index) {struct d} : Index :=
  match d with
  | Dir found =>
      (fix entries (found : list (WIN32_FIND_DATAA * Directory)) (ix : Index)
           {struct found} : Index :=
         match found with
         | [] => ix
         | (findData, below) :: rest =>
             if m_shouldStop then ix
             else
               let fileName := cFileName findData in
               if String.eqb fileName "." || String.eqb fileName ".."
               then entries rest ix
               else
                 let fullPath :=
                   String.append path (String.append backslash fileName) in
                 if has_attribute (dwFileAttributes findData)
                                  FILE_ATTRIBUTE_DIRECTORY
                 then
                   if descends findData
                   then entries rest
                          (IndexDirectoryOptimized m_shouldStop fullPath below ix)
                   else entries rest ix
                 else entries rest (add_file fullPath findData ix)
         end) found ix
  end.

(** The loop of [SearchInstant] over the index; [results] is the vector
    built so far. *)
Fixpoint scan (lowerQuery : string) (files : list FileInfo)
         (results : list string) : list string :=
  match files with
  | [] => results
  | file :: files' =>
      match find (lowerName file) lowerQuery with
      | Some _ =>
          let results := results ++ [path file] in
          if 100 <=? Z.of_nat (length results) then results
          else scan lowerQuery files' results
      | None => scan lowerQuery files' results
      end
  end.

(** [SearchInstant(query)]. *)
Definition SearchInstant (query : string) (m_fileIndex : list FileInfo)
  : list string :=
  if empty query || (Z.of_nat (String.length query) <? 1) then []
  else scan (transform_tolower query) m_fileIndex [].

(** The same function with a count of the index entries it looks at. *)
Fixpoint scan_counting (lowerQuery : string) (files : list FileInfo)
         (results : list string) (looked : nat) : list string * nat :=
  match files with
  | [] => (results, looked)
  | file :: files' =>
      match find (lowerName file) lowerQuery with
      | Some _ =>
          let results := results ++ [path file] in
          if 100 <=? Z.of_nat (length results) then (results, S looked)
          else scan_counting lowerQuery files' results (S looked)
      | None => scan_counting lowerQuery files' results (S looked)
      end
  end.

Definition SearchInstant_counting (query : string) (m_fileIndex : list FileInfo)
  : list string * nat :=
  if empty query || (Z.of_nat (String.length query) <? 1) then ([], O)
  else scan_counting (transform_tolower query) m_fileIndex [] O.

(** The test of the loop, [file.lowerName.find(lowerQuery) != npos]. *)
Definition hit (lowerQuery : string) (file : FileInfo) : bool :=
match find (lowerName file) lowerQuery with
| Some _ => true
| None => false
end.


(** [IndexAllDrivesParallel]: the drive letters [0..25] of the bit mask
    [GetLogicalDrives()] returns. *)
Definition letters : list Z := Z.of_nat <$> seq 0 26.

Definition drive_letter (i : Z) : ascii := ascii_of_N (Z.to_N (65 + i)).

(** [drives & (1 << i)] as a condition. *)
Definition drive_present (drives i : Z) : bool :=
  negb (Z.land drives (Z.shiftl 1 i) =? 0).

Definition is_floppy (drive : ascii) : bool :=
  (Ascii.eqb drive "A" || Ascii.eqb drive "B")%char.

(** The first loop: [totalDrives]. *)
Definition totalDrives (drives : Z) : Z :=
  fold_left (fun total i =>
               if drive_present drives i
               then (if negb (is_floppy (drive_letter i)) then total + 1
                     else total)
               else total)
            letters 0.

(** The second loop: the roots for which a worker is started, in the order
    of the letters. *)
Definition drive_root (i : Z) : string :=
  String (drive_letter i) (String ":" backslash).

Definition worker_roots (drives : Z) (m_shouldStop : bool) : list string :=
  flat_map (fun i =>
              if drive_present drives i && negb m_shouldStop
              then (if negb (is_floppy (drive_letter i)) then [drive_root i]
                    else [])
              else [])
           letters.

End Engine.

(** * Properties *)

(** ** Order facts on doubles *)

Section DoubleFacts.
Import Double.

Lemma SFcompare_antisym (a b : double) :
  SFcompare b a = option_map CompOpp (SFcompare a b).
Proof.
  destruct a as [[]|[]| |[] m1 e1], b as [[]|[]| |[] m2 e2];
    cbn; try reflexivity;
    rewrite (Z.compare_antisym e1 e2); destruct (e1 ?= e2);
    cbn; try reflexivity;
    rewrite (Pos.compare_cont_antisym m1 m2 Eq); cbn; try reflexivity;
    destruct (Pos.compare_cont Eq m1 m2); reflexivity.
Qed.

Lemma lt_asym (a b : double) : lt a b = true -> lt b a = false.
Proof.
  unfold lt, SFltb. rewrite (SFcompare_antisym a b).
  destruct (SFcompare a b) as [[]|]; cbn; congruence.
Qed.

Lemma lt_irrefl (a : double) : lt a a = false.
Proof.
  destruct (lt a a) eqn:E; [|reflexivity].
  pose proof (lt_asym _ _ E). congruence.
Qed.

Local Ltac settle := split; [ discriminate || lia | lia || reflexivity ].

Lemma lt_rank (a b : double) :
  is_nan a = false -> is_nan b = false ->
  lt a b = true <-> lex (rank a) (rank b).
Proof.
  intros Ha Hb. unfold lt, SFltb.
  destruct a as [[]|[]| |[] m1 e1], b as [[]|[]| |[] m2 e2];
    cbn in *; try congruence; try settle.
  all: pose proof (Pos.compare_spec m1 m2) as Hm; unfold Pos.compare in Hm.
  all: destruct (Z.compare_spec e1 e2); cbn; try settle.
  all: destruct Hm; cbn; settle.
Qed.

(** "Not less than" is transitive away from NaN. *)
Lemma lt_negtrans (a b c : double) :
  is_nan a = false -> is_nan b = false -> is_nan c = false ->
  lt a b = false -> lt b c = false -> lt a c = false.
Proof.
  intros Ha Hb Hc Hab Hbc.
  apply not_true_is_false. intros Hac.
  apply not_true_iff_false in Hab, Hbc.
  rewrite lt_rank in Hab, Hbc, Hac by assumption.
  destruct (rank a) as [[a1 a2] a3], (rank b) as [[b1 b2] b3],
    (rank c) as [[c1 c2] c3].
  unfold lex in *. lia.
Qed.

End DoubleFacts.

(** ** [FileEntry::updateTokens] *)

Section UpdateTokens.
Import CType Core.

Lemma append_cons (a : ascii) (s t : string) :
  String.append (String a s) t = String a (String.append s t).
Proof. reflexivity. Qed.

Lemma append_push_back (s t : string) (c : ascii) :
  String.append (push_back s c) t = String.append s (String c t).
Proof.
  unfold push_back. induction s as [|a s IH]; [reflexivity|].
  rewrite !append_cons. f_equal. exact IH.
Qed.

Lemma append_empty_r (s : string) : String.append s EmptyString = s.
Proof.
  induction s as [|a s IH]; [reflexivity|].
  rewrite append_cons. f_equal. exact IH.
Qed.

(** The loop appends to what it was given the image of each character. *)
Lemma normalize_loop_append (acc rest : string) :
  normalize_loop acc rest = String.append acc (normalize_each rest).
Proof.
  revert acc. induction rest as [|c rest IH]; intros acc.
  - cbn. now rewrite append_empty_r.
  - cbn [normalize_loop normalize_each]. rewrite IH. unfold normalize_char.
    destruct (isalnum c); [apply append_push_back|].
    destruct (is_separator c); [apply append_push_back | reflexivity].
Qed.

Lemma isalnum_not_separator (c : ascii) :
  isalnum c = true -> is_separator c = false.
Proof.
  destruct c as [[] [] [] [] [] [] [] []]; vm_compute; congruence.
Qed.

Lemma tolower_alnum_not_space (c : ascii) :
  isalnum c = true -> is_space (tolower c) = false.
Proof.
  destruct c as [[] [] [] [] [] [] [] []]; vm_compute; congruence.
Qed.

Lemma spaces_normalize_each (s : string) :
  count_chars is_space (normalize_each s) = count_chars is_separator s.
Proof.
  induction s as [|c s IH]; cbn; [reflexivity|].
  destruct (isalnum c) eqn:Ea.
  - cbn. rewrite (tolower_alnum_not_space c Ea), (isalnum_not_separator c Ea).
    exact IH.
  - destruct (is_separator c); cbn; now rewrite IH.
Qed.

Example updateTokens_example :
  let e := updateTokens (entry_named 7 "My_File-v2.TXT" "TXT") in
  normalizedName e = "my file v2 txt"%string
  /\ tokens e = ["my"; "file"; "v2"; "txt"; "txt"]%string.
Proof. split; reflexivity. Qed.

(** C1, as the specification words it, fails: the file name [a - b.txt]
    has a run of three separators, and the normalized name keeps three
    spaces where the specification's collapsed form has one. *)
Lemma updateTokens_keeps_separator_runs :
  let e := updateTokens (entry_named 1 "a - b.txt" "txt") in
  normalizedName e = "a   b txt"%string
  /\ normalized_name_spec (fileName e) = "a b txt"%string
  /\ normalizedName e <> normalized_name_spec (fileName e)
  /\ has_double_space (normalizedName e) = true.
Proof. vm_compute. repeat split; congruence. Qed.

(** C1, amended: after [updateTokens] the normalized name is the file name
    taken character by character, every alphanumeric kept in lower case,
    every one of [.], [_], [-] and space replaced by a space of its own
    (so the name holds exactly as many spaces as the file name holds
    separators, runs included), and every other character left out. *)
Theorem updateTokens_normalizedName (e : FileEntry) :
  normalizedName (updateTokens e) = normalize_each (fileName e)
  /\ count_chars is_space (normalizedName (updateTokens e))
     = count_chars is_separator (fileName e).
Proof.
  assert (Hn : normalizedName (updateTokens e) = normalize_each (fileName e)).
  { unfold updateTokens. destruct (empty (fileName e)) eqn:E;
      cbn [normalizedName with_index_fields].
    - destruct (fileName e); [reflexivity | discriminate].
    - rewrite normalize_loop_append. reflexivity. }
  split; [exact Hn|]. rewrite Hn. apply spaces_normalize_each.
Qed.

End UpdateTokens.


(** ** [SearchQuery::isValid] *)

Section IsValid.
Import Double CType Core.

Lemma empty_iff (s : string) : empty s = true <-> s = EmptyString.
Proof. destruct s; cbn; split; congruence. Qed.

(** [isValid] in terms of its own comparisons: it answers false exactly
    when the query text is empty, or [maxResults] is 0, or the threshold
    compares below 0 or above 1. *)
Lemma isValid_false_iff (q : SearchQuery) :
  isValid q = false <->
  (query q = EmptyString
   \/ maxResults q = 0
   \/ lt (fuzzyThreshold q) zero = true
   \/ lt one (fuzzyThreshold q) = true).
Proof.
  unfold isValid.
  destruct (empty (query q)) eqn:Eq.
  { apply empty_iff in Eq. tauto. }
  assert (Hq : query q <> EmptyString).
  { intros Hq. apply empty_iff in Hq. congruence. }
  destruct (maxResults q =? 0) eqn:Em.
  { apply Z.eqb_eq in Em. tauto. }
  apply Z.eqb_neq in Em.
  destruct (lt (fuzzyThreshold q) zero) eqn:E0; cbn; [tauto|].
  destruct (lt one (fuzzyThreshold q)) eqn:E1; cbn; [tauto|].
  split; [discriminate|]. intros [?|[?|[?|?]]]; congruence.
Qed.

(** Two doubles that are not NaN always compare. *)
Lemma SFcompare_numbers (a b : double) :
  is_nan a = false -> is_nan b = false -> SFcompare a b <> None.
Proof. destruct a, b; cbn; intros Ha Hb; congruence. Qed.

(** Away from NaN, [a <= b] is the negation of [b < a]. *)
Lemma le_not_lt (a b : double) :
  is_nan a = false -> is_nan b = false -> le a b = negb (lt b a).
Proof.
  intros Ha Hb. pose proof (SFcompare_numbers a b Ha Hb) as Hcmp.
  unfold le, lt, SFleb, SFltb. rewrite (SFcompare_antisym a b).
  destruct (SFcompare a b) as [[]|]; cbn; congruence.
Qed.

(** For a threshold that is a number, the two comparisons of [isValid] say
    that it lies outside [[0, 1]]. *)
Lemma outside_unit_interval (f : double) :
  is_nan f = false ->
  lt f zero = true \/ lt one f = true <-> in_unit_interval f = false.
Proof.
  intros Hf. unfold in_unit_interval.
  rewrite (le_not_lt zero f eq_refl Hf), (le_not_lt f one Hf eq_refl).
  destruct (lt f zero), (lt one f); cbn; intuition congruence.
Qed.

(** C5, as it is worded, fails on a NaN threshold: NaN does not lie in
    [[0, 1]], and yet a query with text, a positive [maxResults] and a NaN
    threshold is accepted. *)
Lemma isValid_accepts_threshold_outside_unit_interval :
  let q := query_with "report" S754_nan in
  isValid q = true
  /\ in_unit_interval (fuzzyThreshold q) = false
  /\ query q <> EmptyString
  /\ maxResults q <> 0.
Proof. cbn. repeat split; [discriminate | lia]. Qed.

(** C5, amended: for every query whose threshold is a number (not NaN),
    [isValid] answers false exactly when the query text is empty, or
    [maxResults] is 0, or the threshold lies outside [[0, 1]].  The function
    reads nothing but the query and returns a flag: an empty query is
    rejected with no index looked at and nothing changed. *)
Theorem isValid_false_iff_outside_unit_interval (q : SearchQuery) :
  is_nan (fuzzyThreshold q) = false ->
  isValid q = false <->
  (query q = EmptyString
   \/ maxResults q = 0
   \/ in_unit_interval (fuzzyThreshold q) = false).
Proof.
  intros Hnum.
  rewrite isValid_false_iff, <- (outside_unit_interval _ Hnum). tauto.
Qed.

Lemma isValid_false_iff_outside_unit_interval_witness :
  is_nan (fuzzyThreshold (query_with "report" two)) = false
  /\ in_unit_interval (fuzzyThreshold (query_with "report" two)) = false
  /\ isValid (query_with "report" two) = false
  /\ isValid (query_with "report" half) = true
  /\ isValid (query_with EmptyString half) = false.
Proof.
  split; [reflexivity|]. split; [reflexivity|]. split; [|split; reflexivity].
  apply (isValid_false_iff_outside_unit_interval (query_with "report" two) eq_refl).
  right. right. reflexivity.
Defined.

(** A NaN threshold is let through: with it, [isValid] answers true as soon
    as the query has text and [maxResults] is not 0. *)
Theorem isValid_accepts_nan (q : SearchQuery) :
  is_nan (fuzzyThreshold q) = true ->
  isValid q = true <-> query q <> EmptyString /\ maxResults q <> 0.
Proof.
  intros Hnan. unfold isValid.
  destruct (fuzzyThreshold q); try discriminate. cbn.
  destruct (empty (query q)) eqn:Eq.
  { apply empty_iff in Eq. split; [discriminate | tauto]. }
  assert (Hq : query q <> EmptyString).
  { intros Hq. apply empty_iff in Hq. congruence. }
  destruct (Z.eqb_spec (maxResults q) 0) as [Hm|Hm]; split; try tauto.
  discriminate.
Qed.

(** A query with text, a positive [maxResults] and a NaN threshold passes. *)
Lemma isValid_nan_threshold :
  isValid {| query := "a"; mode := Fuzzy; includeDrives := [];
             excludePaths := []; fileTypes := [];
             sizeRange := {| minSize := 0; maxSize := 2 ^ 64 - 1 |};
             dateRange := {| startDate := 0; endDate := 0 |};
             maxResults := 1000; sortOrder := Relevance;
             caseSensitive := false; fuzzyThreshold := S754_nan |} = true.
Proof.
  apply isValid_accepts_nan; [reflexivity|]. cbn. split; [discriminate | lia].
Defined.

End IsValid.

(** ** [AppSettings::sanitize] and [AppSettings::validate] *)

Section Sanitize.
Import Double CType Core.



End Sanitize.

(** ** [std::sort] and [SearchResults::sortByScore] *)

Section StdSortFacts.
Import Core.
Context {A : Type} (comp : A -> A -> bool) (ok : A -> Prop).

(** What [std::sort] asks of its comparator, on the elements at hand. *)
Hypothesis comp_asym : forall x y, comp x y = true -> comp y x = false.
Hypothesis comp_negtrans : forall x y z, ok x -> ok y -> ok z ->
  comp x y = false -> comp y z = false -> comp x z = false.

Lemma linear_insert_perm (x : A) (l : list A) :
  Permutation (x :: l) (linear_insert comp x l).
Proof.
  induction l as [|y l IH]; cbn.
  - apply Permutation_refl.
  - destruct (comp x y).
    + eapply Permutation_trans; [apply perm_swap|]. now apply perm_skip.
    + apply Permutation_refl.
Qed.

Lemma linear_insert_sorted (x : A) (l : list A) :
  ok x -> Forall ok l ->
  StronglySorted (not_before comp) l ->
  StronglySorted (not_before comp) (linear_insert comp x l).
Proof.
  intros Hx Hl Hs. revert Hl.
  induction Hs as [|y l Hs IH Hy]; intros Hl; cbn.
  - constructor; [constructor | constructor].
  - inversion Hl as [|? ? Hoy Hol]; subst.
    destruct (comp x y) eqn:E.
    + constructor; [now apply IH|].
      eapply Permutation_Forall; [apply linear_insert_perm|].
      constructor; [|exact Hy]. now apply comp_asym.
    + constructor; [now constructor|].
      constructor; [exact E|].
      rewrite Forall_forall in Hy, Hol |- *. intros z Hz.
      apply (comp_negtrans x y z);
        [exact Hx | exact Hoy | apply Hol, Hz | exact E | apply Hy, Hz].
Qed.

Lemma StronglySorted_snoc (R : A -> A -> Prop) (l : list A) (x : A) :
  StronglySorted R l -> Forall (fun y => R y x) l ->
  StronglySorted R (l ++ [x]).
Proof.
  induction 1 as [|y l Hs IH Hy]; intros Hx; cbn.
  - constructor; constructor.
  - inversion Hx; subst. constructor; [now apply IH|].
    apply Forall_app. split; [exact Hy | now constructor].
Qed.

Lemma StronglySorted_rev (R : A -> A -> Prop) (l : list A) :
  StronglySorted R l -> StronglySorted (fun x y => R y x) (rev l).
Proof.
  induction 1 as [|y l Hs IH Hy]; cbn; [constructor|].
  apply StronglySorted_snoc; [exact IH|].
  apply Forall_rev. exact Hy.
Qed.

Lemma StronglySorted_last (R : A -> A -> Prop) (l : list A) (x : A) :
  StronglySorted R (l ++ [x]) -> Forall (fun y => R y x) l.
Proof.
  induction l as [|y l IH]; cbn; intros Hs; [constructor|].
  inversion Hs as [|? ? Hs' Hy]; subst. constructor; [|now apply IH].
  rewrite Forall_forall in Hy. apply Hy. rewrite elem_of_app. right. now left.
Qed.

Lemma insert_next_perm (x : A) (l : list A) :
  Permutation (x :: l) (insert_next comp x l).
Proof.
  unfold insert_next. destruct (last l) as [first|] eqn:E.
  - destruct (comp x first); [apply Permutation_cons_append|].
    apply linear_insert_perm.
  - apply last_None in E. subst l. apply Permutation_refl.
Qed.

Lemma insert_next_sorted (x : A) (l : list A) :
  ok x -> Forall ok l ->
  StronglySorted (not_before comp) l ->
  StronglySorted (not_before comp) (insert_next comp x l).
Proof.
  intros Hx Hl Hs. unfold insert_next. destruct (last l) as [first|] eqn:E.
  - destruct (comp x first) eqn:Ec; [|now apply linear_insert_sorted].
    apply StronglySorted_snoc; [exact Hs|].
    apply last_Some in E as [l' ->].
    apply Forall_app in Hl as [Hl' Hfirst]. inversion Hfirst; subst.
    apply Forall_app. split.
    + pose proof (StronglySorted_last _ _ _ Hs) as Hbefore.
      rewrite Forall_forall in Hbefore, Hl' |- *. intros y Hy.
      apply (comp_negtrans y first x);
        [apply Hl', Hy | assumption | exact Hx | apply Hbefore, Hy
         | now apply comp_asym].
    + constructor; [now apply comp_asym | constructor].
  - constructor; constructor.
Qed.

Lemma insertion_loop_perm (todo sorted_rev : list A) :
  Permutation (rev sorted_rev ++ todo) (rev (insertion_loop comp sorted_rev todo)).
Proof.
  revert sorted_rev. induction todo as [|x todo IH]; intros sorted_rev; cbn.
  - now rewrite app_nil_r.
  - eapply Permutation_trans; [|apply IH].
    change (x :: todo) with ([x] ++ todo). rewrite app_assoc.
    apply Permutation_app_tail.
    change (rev sorted_rev ++ [x]) with (rev (x :: sorted_rev)).
    eapply Permutation_trans; [apply Permutation_sym, Permutation_rev|].
    eapply Permutation_trans; [apply insert_next_perm|].
    apply Permutation_rev.
Qed.

Lemma insertion_loop_sorted (todo sorted_rev : list A) :
  Forall ok todo -> Forall ok sorted_rev ->
  StronglySorted (not_before comp) sorted_rev ->
  StronglySorted (not_before comp) (insertion_loop comp sorted_rev todo).
Proof.
  revert sorted_rev. induction todo as [|x todo IH]; intros sorted_rev Ht Hr Hs; cbn.
  - exact Hs.
  - inversion Ht; subst. apply IH; [assumption | |].
    + eapply Permutation_Forall; [apply insert_next_perm|]. now constructor.
    + now apply insert_next_sorted.
Qed.

(** The contract of [std::sort]: the same elements, and no element comes
    before one that stands ahead of it. *)
Lemma std_sort_perm (l : list A) : Permutation l (std_sort comp l).
Proof. exact (insertion_loop_perm l []). Qed.

Lemma std_sort_sorted (l : list A) :
  Forall ok l ->
  StronglySorted (fun x y => comp y x = false) (std_sort comp l).
Proof.
  intros Hl. unfold std_sort.
  apply (StronglySorted_rev (not_before comp)).
  apply insertion_loop_sorted; [exact Hl | constructor | constructor].
Qed.

End StdSortFacts.

Section SortByScore.
Import Double Core.

Lemma by_score_asym (x y : SearchResult) :
  by_score x y = true -> by_score y x = false.
Proof. unfold by_score. apply lt_asym. Qed.

Lemma by_score_negtrans (x y z : SearchResult) :
  is_nan (score x) = false -> is_nan (score y) = false ->
  is_nan (score z) = false ->
  by_score x y = false -> by_score y z = false -> by_score x z = false.
Proof.
  unfold by_score. intros Hx Hy Hz Hxy Hyz.
  now apply (lt_negtrans (score z) (score y) (score x)).
Qed.

(** C3, as the specification words it, fails: two results with the same
    score come out in the order they went in, whatever their names and ids.
    Put in as [b.txt] (id 2) then [a.txt] (id 1) they stay in that order,
    against the tie-break; put in the other way round they come out the
    other way round, so the order of equal scores is not fixed by the
    results themselves. *)
Lemma sortByScore_ties_keep_input_order :
  let ea := updateTokens (entry_named 1 "a.txt" "txt") in
  let eb := updateTokens (entry_named 2 "b.txt" "txt") in
  let a := SearchResult_of ea half in
  let b := SearchResult_of eb half in
  let found := SearchResults_of "txt" 0 in
  results_ (sortByScore (addResult ea half (addResult eb half found))) = [b; a]
  /\ results_ (sortByScore (addResult eb half (addResult ea half found))) = [a; b]
  /\ score a = score b
  /\ tie_ordered a b = true
  /\ tie_ordered b a = false.
Proof. vm_compute. repeat split; reflexivity. Qed.

(** C3, amended: when no score is NaN, [sortByScore] leaves the same results
    in descending score order (no result has a smaller score than one that
    follows it) and touches nothing else; how results with equal scores are
    ordered is left to [std::sort], not decided by name or id. *)
Theorem sortByScore_descending (r : SearchResults) :
  Forall (fun x => is_nan (score x) = false) (results_ r) ->
  Permutation (results_ r) (results_ (sortByScore r))
  /\ StronglySorted (fun x y => lt (score x) (score y) = false)
                    (results_ (sortByScore r))
  /\ query_ (sortByScore r) = query_ r
  /\ searchTime_ (sortByScore r) = searchTime_ r
  /\ totalMatches_ (sortByScore r) = totalMatches_ r.
Proof.
  intros Hnan. repeat split.
  - apply std_sort_perm.
  - apply (std_sort_sorted by_score (fun x => is_nan (score x) = false)).
    + apply by_score_asym.
    + apply by_score_negtrans.
    + exact Hnan.
Qed.

Lemma sortByScore_descending_witness :
  let ea := updateTokens (entry_named 1 "a.txt" "txt") in
  let eb := updateTokens (entry_named 2 "b.txt" "txt") in
  let r := addResult ea one (addResult eb half (SearchResults_of "txt" 0)) in
  Forall (fun x => is_nan (score x) = false) (results_ r)
  /\ results_ (sortByScore r) = [SearchResult_of ea one; SearchResult_of eb half]
  /\ StronglySorted (fun x y => lt (score x) (score y) = false)
                    (results_ (sortByScore r)).
Proof.
  assert (H : Forall (fun x => is_nan (score x) = false)
                [SearchResult_of (updateTokens (entry_named 2 "b.txt" "txt")) half;
                 SearchResult_of (updateTokens (entry_named 1 "a.txt" "txt")) one]).
  { repeat constructor. }
  split; [exact H|]. split; [reflexivity|].
  exact (proj1 (proj2 (sortByScore_descending
    (addResult (updateTokens (entry_named 1 "a.txt" "txt")) one
       (addResult (updateTokens (entry_named 2 "b.txt" "txt")) half
          (SearchResults_of "txt" 0))) H))).
Defined.

End SortByScore.

(** ** [ThreadSafeQueue] *)

Section QueueFacts.
Import Utils.
Context {T : Type}.

Lemma after_keeps_shutdown (q : ThreadSafeQueue T) (c : Call T) :
  is_restart c = false -> shutdown_ q = true -> shutdown_ (after q c) = true.
Proof.
  intros Hc Hq. destruct c; cbn in *; try congruence; try assumption.
  - unfold push. rewrite Hq. exact Hq.
  - unfold pop. destruct (queue_ q); [rewrite Hq|]; cbn; exact Hq.
  - unfold tryPop. destruct (queue_ q); cbn; exact Hq.
Qed.

(** Once [shutdown] has run, the flag stays set until [restart] runs. *)
Lemma shutdown_lasts (q : ThreadSafeQueue T) (cs : list (Call T)) :
  no_restart cs -> shutdown_ (after_all (shutdown q) cs) = true.
Proof.
  unfold after_all. intros Hcs.
  assert (H0 : shutdown_ (shutdown q) = true) by reflexivity.
  revert H0. generalize (shutdown q) as q'.
  induction Hcs as [|c cs Hc Hcs IH]; intros q' Hq'; cbn; [exact Hq'|].
  apply IH. now apply after_keeps_shutdown.
Qed.

(** C2: on a queue that has been shut down and not restarted, [pop] never
    waits; it hands out the front item as long as there is one and answers
    "none" only on an empty queue.  Both overloads. *)
Theorem pop_drains_after_shutdown
        (q0 : ThreadSafeQueue T) (cs : list (Call T)) (item : T) :
  no_restart cs ->
  let q := after_all (shutdown q0) cs in
  match queue_ q with
  | [] =>
      pop q = Returns None q
      /\ pop_into q item = Returns (false, item) q
  | front :: rest =>
      pop q = Returns (Some front) {| queue_ := rest; shutdown_ := true |}
      /\ pop_into q item
         = Returns (true, front) {| queue_ := rest; shutdown_ := true |}
  end.
Proof.
  intros Hcs q. pose proof (shutdown_lasts q0 cs Hcs) as Hq. fold q in Hq.
  unfold pop, pop_into. destruct (queue_ q) as [|front rest]; rewrite Hq; cbn.
  - split; reflexivity.
  - split; reflexivity.
Qed.

(** C7, amended: on a queue that has been shut down and not restarted,
    [push] changes nothing, neither the items nor the flag.  It returns
    nothing ([void]), so the caller is not told. *)
Theorem push_after_shutdown_is_noop
        (q0 : ThreadSafeQueue T) (cs : list (Call T)) (item : T) :
  no_restart cs ->
  let q := after_all (shutdown q0) cs in
  push q item = (tt, q).
Proof.
  intros Hcs q. pose proof (shutdown_lasts q0 cs Hcs) as Hq. fold q in Hq.
  unfold push. now rewrite Hq.
Qed.

End QueueFacts.

Section QueueExamples.
Import Utils.

(** Items come out in the order they went in; a push after [shutdown] is
    dropped, and the items queued before it still come out. *)
Example queue_example :
  let q := after_all create
             [CallPush 1; CallPush 2; CallShutdown; CallPush 3; CallPop] in
  queue_ q = [2] /\ shutdown_ q = true
  /\ pop q = Returns (Some 2) {| queue_ := []; shutdown_ := true |}
  /\ pop (create (T := Z)) = Waits.
Proof. repeat split. Qed.

Lemma pop_drains_after_shutdown_witness :
  let q0 := snd (push (snd (push create 1)) 2) in
  no_restart [CallPop; CallPush 3]
  /\ pop (after_all (shutdown q0) [CallPop; CallPush 3])
     = Returns (Some 2) {| queue_ := []; shutdown_ := true |}
  /\ pop_into (after_all (shutdown q0) [CallPop; CallPush 3]) 0
     = Returns (true, 2) {| queue_ := []; shutdown_ := true |}.
Proof.
  assert (H : @no_restart Z [CallPop; CallPush 3]) by (repeat constructor).
  split; [exact H|].
  exact (pop_drains_after_shutdown
           (snd (push (snd (push create 1)) 2)) [CallPop; CallPush 3] 0 H).
Defined.

(** C7, as the specification words it, fails: [push] has no return value.
    The rejected call on the stopped queue and the accepted call on the
    running one give the caller the same (empty) answer, so nothing computed
    from it tells them apart, while the first leaves the items alone and the
    second appends. *)
Lemma push_rejection_is_silent :
  let running : ThreadSafeQueue Z := snd (push create 1) in
  let stopped := shutdown running in
  fst (push stopped 2) = fst (push running 2)
  /\ (forall report : unit -> bool,
        report (fst (push stopped 2)) = report (fst (push running 2)))
  /\ queue_ (snd (push stopped 2)) = [1]
  /\ queue_ (snd (push running 2)) = [1; 2].
Proof. cbn. repeat split. Qed.

Lemma push_after_shutdown_is_noop_witness :
  let q0 : ThreadSafeQueue Z := snd (push create 1) in
  no_restart [CallTryPop; CallPush 5]
  /\ push (after_all (shutdown q0) [CallTryPop; CallPush 5]) 7
     = (tt, {| queue_ := []; shutdown_ := true |}).
Proof.
  assert (H : @no_restart Z [CallTryPop; CallPush 5]) by (repeat constructor).
  split; [exact H|].
  exact (push_after_shutdown_is_noop (snd (push create 1))
           [CallTryPop; CallPush 5] 7 H).
Defined.

End QueueExamples.

(** ** [LRUCache] *)

Section LRUFacts.
Import Storage.
Context {Key : Type} `{Countable Key} {Value : Type}.
Implicit Types (l : list (CacheNode Key Value)) (n : CacheNode Key Value).
Implicit Types (c : LRUCache Key Value) (k : Key).

Lemma wrap64_small (z : Z) : 0 <= z < 2 ^ 64 -> wrap64 z = z.
Proof. intros Hz. unfold wrap64. now apply Z.mod_small. Qed.

Lemma has_key_true k n : has_key k n = true <-> key n = k.
Proof. unfold has_key. now rewrite bool_decide_eq_true. Qed.

Lemma has_key_false k n : has_key k n = false <-> key n <> k.
Proof. unfold has_key. now rewrite bool_decide_eq_false. Qed.

Lemma erase_cons k n l :
  erase k (n :: l) = if has_key k n then erase k l else n :: erase k l.
Proof. unfold erase. cbn. now destruct (has_key k n). Qed.

Lemma node_of_cons k n l :
  node_of k (n :: l) = if has_key k n then Some n else node_of k l.
Proof. reflexivity. Qed.

Lemma erase_absent k l : k ∉ key <$> l -> erase k l = l.
Proof.
  induction l as [|n l IH]; intros Hk; [reflexivity|].
  rewrite fmap_cons, not_elem_of_cons in Hk. destruct Hk as [Hn Hl].
  rewrite erase_cons. destruct (has_key k n) eqn:E.
  - apply has_key_true in E. congruence.
  - f_equal. now apply IH.
Qed.

Lemma elem_of_keys_erase k k' l :
  k' ∈ key <$> erase k l <-> k' <> k /\ k' ∈ key <$> l.
Proof.
  induction l as [|n l IH].
  { cbn. split; [intros Hk | intros [_ Hk]]; now apply elem_of_nil in Hk. }
  rewrite erase_cons. destruct (has_key k n) eqn:E.
  - apply has_key_true in E. rewrite IH, fmap_cons, elem_of_cons.
    split; [tauto|]. intros [Hne [Hk|Hk]]; [congruence | tauto].
  - apply has_key_false in E. rewrite !fmap_cons, !elem_of_cons, IH.
    split; [|tauto]. intros [Hk|Hk]; [|tauto]. subst k'. tauto.
Qed.

Lemma NoDup_keys_erase k l : NoDup (key <$> l) -> NoDup (key <$> erase k l).
Proof.
  induction l as [|n l IH]; intros Hnd; [constructor|].
  rewrite fmap_cons in Hnd. apply NoDup_cons in Hnd as [Hn Hnd].
  rewrite erase_cons. destruct (has_key k n); [now apply IH|].
  rewrite fmap_cons. apply NoDup_cons. split; [|now apply IH].
  rewrite elem_of_keys_erase. tauto.
Qed.

Lemma length_erase k l :
  NoDup (key <$> l) -> k ∈ key <$> l -> S (length (erase k l)) = length l.
Proof.
  induction l as [|n l IH]; intros Hnd Hk.
  - cbn in Hk. now apply elem_of_nil in Hk.
  - rewrite fmap_cons in Hnd, Hk. apply NoDup_cons in Hnd as [Hn Hnd].
    rewrite erase_cons. destruct (has_key k n) eqn:E.
    + apply has_key_true in E. subst k. now rewrite erase_absent.
    + apply has_key_false in E. apply elem_of_cons in Hk as [Hk|Hk];
        [congruence|]. cbn. f_equal. now apply IH.
Qed.

Lemma node_of_key k l n : node_of k l = Some n -> key n = k.
Proof.
  induction l as [|m l IH]; [discriminate|].
  rewrite node_of_cons. destruct (has_key k m) eqn:E; [|exact IH].
  intros [= <-]. now apply has_key_true.
Qed.

Lemma node_of_present k l : k ∈ key <$> l -> exists n, node_of k l = Some n.
Proof.
  induction l as [|m l IH]; intros Hk.
  - now apply elem_of_nil in Hk.
  - rewrite node_of_cons. destruct (has_key k m) eqn:E; [now exists m|].
    apply has_key_false in E. rewrite fmap_cons in Hk.
    apply elem_of_cons in Hk as [Hk|Hk]; [congruence | now apply IH].
Qed.

(** With the key present, [moveToFront] puts its node first and keeps the
    others in their order. *)
Lemma moveToFront_present k l n :
  NoDup (key <$> l) -> node_of k l = Some n ->
  moveToFront k l = n :: erase k l.
Proof.
  destruct l as [|first l]; [discriminate|]. intros Hnd Hn.
  unfold moveToFront. rewrite Hn, erase_cons.
  rewrite node_of_cons in Hn.
  destruct (has_key k first) eqn:E.
  - injection Hn as <-. f_equal. symmetry. apply erase_absent.
    apply has_key_true in E. subst k.
    rewrite fmap_cons in Hnd. now apply NoDup_cons in Hnd.
  - reflexivity.
Qed.

Lemma keys_front_erase k l n :
  NoDup (key <$> l) -> node_of k l = Some n ->
  key <$> (n :: erase k l) ≡ₚ key <$> l.
Proof.
  induction l as [|m l IH]; [discriminate|]. intros Hnd Hn.
  rewrite fmap_cons in Hnd. apply NoDup_cons in Hnd as [Hm Hnd].
  rewrite node_of_cons in Hn. rewrite erase_cons.
  destruct (has_key k m) eqn:E.
  - injection Hn as <-. apply has_key_true in E. subst k.
    now rewrite erase_absent.
  - rewrite !fmap_cons. rewrite fmap_cons in IH.
    rewrite Permutation_swap. now rewrite IH.
Qed.

Lemma keys_assign k (v : Value) (now : Z) l :
  key <$> assign k v now l = key <$> l.
Proof.
  unfold assign. induction l as [|n l IH]; [reflexivity|].
  cbn. rewrite IH. now destruct (has_key k n).
Qed.

Lemma erase_assign k (v : Value) (now : Z) l :
  erase k (assign k v now l) = erase k l.
Proof.
  induction l as [|n l IH]; [reflexivity|].
  change (assign k v now (n :: l))
    with ((if has_key k n
           then {| key := key n; value := v; accessTime := now |}
           else n) :: assign k v now l).
  rewrite !erase_cons, IH. destruct (has_key k n) eqn:E.
  - change (has_key k {| key := key n; value := v; accessTime := now |})
      with (has_key k n). now rewrite E.
  - now rewrite E.
Qed.

Lemma node_of_assign k (v : Value) (now : Z) l :
  k ∈ key <$> l ->
  node_of k (assign k v now l)
  = Some {| key := k; value := v; accessTime := now |}.
Proof.
  induction l as [|n l IH]; intros Hk.
  - now apply elem_of_nil in Hk.
  - change (assign k v now (n :: l))
      with ((if has_key k n
             then {| key := key n; value := v; accessTime := now |}
             else n) :: assign k v now l).
    rewrite node_of_cons. destruct (has_key k n) eqn:E.
    + change (has_key k {| key := key n; value := v; accessTime := now |})
        with (has_key k n). rewrite E. apply has_key_true in E. now rewrite E.
    + rewrite E. apply has_key_false in E. rewrite fmap_cons in Hk.
      apply elem_of_cons in Hk as [Hk|Hk]; [congruence | now apply IH].
Qed.

Lemma keys_touch k (now : Z) l : key <$> touch k now l = key <$> l.
Proof.
  unfold touch. induction l as [|n l IH]; [reflexivity|].
  cbn. rewrite IH. now destruct (has_key k n).
Qed.

(** A cache whose list holds the same keys in another order, with the same
    map, size and capacity, is coherent too. *)
Lemma coherent_fields c c' :
  key <$> nodeList_ c' ≡ₚ key <$> nodeList_ c ->
  hashMap_ c' = hashMap_ c ->
  currentSize_ c' = currentSize_ c ->
  capacity_ c' = capacity_ c ->
  coherent c -> coherent c'.
Proof.
  intros Hp Hm Hs Hc [Hnd Hkm Hsz Hr Hcap]. unfold keys in *.
  split; unfold keys.
  - now rewrite Hp.
  - intros k. now rewrite Hm, Hp.
  - rewrite Hs, Hsz. f_equal.
    rewrite <- (length_fmap key (nodeList_ c')), <- (length_fmap key (nodeList_ c)).
    now rewrite Hp.
  - now rewrite Hs.
  - now rewrite Hc.
Qed.

Lemma create_coherent (capacity : Z) :
  is_size_t capacity ->
  consistent (create (Key := Key) (Value := Value) capacity).
Proof.
  intros [H0 H1]. split; [split|]; cbn.
  - constructor.
  - intros k. split; intros Hk; [now apply elem_of_empty in Hk
                                | now apply elem_of_nil in Hk].
  - reflexivity.
  - lia.
  - destruct (Z.eqb_spec capacity 0); lia.
  - destruct (Z.eqb_spec capacity 0); lia.
Qed.

(** [evictLRU] on a list that ends with [lru]. *)
Lemma evictLRU_last c l lru :
  nodeList_ c = l ++ [lru] ->
  evictLRU c = {| nodeList_ := l;
                  hashMap_ := hashMap_ c ∖ {[ key lru ]};
                  capacity_ := capacity_ c;
                  currentSize_ := wrap64 (currentSize_ c - 1);
                  hitCount_ := hitCount_ c; missCount_ := missCount_ c;
                  evictionCount_ := wrap64 (evictionCount_ c + 1) |}.
Proof.
  intros Hl. unfold evictLRU. rewrite Hl, last_snoc, removelast_last.
  reflexivity.
Qed.

Lemma evictLRU_empty c : nodeList_ c = [] -> evictLRU c = c.
Proof. intros Hl. unfold evictLRU. now rewrite Hl. Qed.

Lemma nonempty_snoc l : l <> [] -> exists l' lru, l = l' ++ [lru].
Proof.
  intros Hl. destruct (last l) as [lru|] eqn:E.
  - apply last_Some in E as [l' ->]. now exists l', lru.
  - apply last_None in E. contradiction.
Qed.

Lemma evictLRU_coherent c :
  coherent c -> nodeList_ c <> [] ->
  coherent (evictLRU c)
  /\ currentSize_ (evictLRU c) = currentSize_ c - 1
  /\ capacity_ (evictLRU c) = capacity_ c
  /\ evictionCount_ (evictLRU c) = wrap64 (evictionCount_ c + 1)
  /\ hashMap_ (evictLRU c) ⊆ hashMap_ c
  /\ (length (nodeList_ (evictLRU c)) < length (nodeList_ c))%nat.
Proof.
  intros [Hnd Hkm Hsz Hr Hcap] Hne.
  destruct (nonempty_snoc _ Hne) as (l & lru & Hl).
  rewrite (evictLRU_last c l lru Hl). cbn.
  unfold keys in *. rewrite Hl in *. rewrite length_app in *. cbn in *.
  rewrite fmap_app in *. cbn in *. apply NoDup_app in Hnd as (Hnd & Hlast & _).
  assert (Hs : wrap64 (currentSize_ c - 1) = currentSize_ c - 1)
    by (apply wrap64_small; lia).
  rewrite Hs. repeat split; cbn; try lia.
  - exact Hnd.
  - rewrite elem_of_difference, Hkm, elem_of_app, list_elem_of_singleton,
      elem_of_singleton.
    intros [[Hk|Hk] Hne']; [exact Hk | contradiction].
  - intros Hk. rewrite elem_of_difference, Hkm, elem_of_app,
      list_elem_of_singleton, elem_of_singleton.
    split; [now left|]. intros ->. apply (Hlast _ Hk). now left.
  - apply subseteq_difference_l. reflexivity.
Qed.

Lemma hashMap_keys c k : coherent c -> k ∈ hashMap_ c -> k ∈ key <$> nodeList_ c.
Proof. intros Hc Hk. now apply (keys_map c Hc). Qed.

(** [put] on a key that is present. *)
Lemma put_present k (v : Value) (now : Z) c :
  coherent c -> k ∈ hashMap_ c ->
  put k v now c
  = {| nodeList_ := {| key := k; value := v; accessTime := now |}
                      :: erase k (nodeList_ c);
       hashMap_ := hashMap_ c;
       capacity_ := capacity_ c; currentSize_ := currentSize_ c;
       hitCount_ := hitCount_ c; missCount_ := missCount_ c;
       evictionCount_ := evictionCount_ c |}.
Proof.
  intros Hc Hk. unfold put. destruct (decide (k ∈ hashMap_ c)); [|contradiction].
  f_equal. pose proof (hashMap_keys c k Hc Hk) as Hin.
  rewrite (moveToFront_present k _ _
             ltac:(rewrite keys_assign; apply (keys_nodup c Hc))
             (node_of_assign k v now _ Hin)).
  now rewrite erase_assign.
Qed.

(** [put] on a key that is absent. *)
Lemma put_absent k (v : Value) (now : Z) c :
  k ∉ hashMap_ c ->
  put k v now c
  = let c1 := if capacity_ c <=? currentSize_ c then evictLRU c else c in
    {| nodeList_ := {| key := k; value := v; accessTime := now |} :: nodeList_ c1;
       hashMap_ := {[ k ]} ∪ hashMap_ c1;
       capacity_ := capacity_ c1;
       currentSize_ := wrap64 (currentSize_ c1 + 1);
       hitCount_ := hitCount_ c1; missCount_ := missCount_ c1;
       evictionCount_ := evictionCount_ c1 |}.
Proof.
  intros Hk. unfold put. destruct (decide (k ∈ hashMap_ c)); [contradiction|].
  reflexivity.
Qed.

Lemma full_nonempty c :
  consistent c -> capacity_ c <= currentSize_ c -> nodeList_ c <> [].
Proof.
  intros [[_ _ Hsz _ Hcap] _] Hfull Hl. rewrite Hl in Hsz. cbn in Hsz. lia.
Qed.

(** A new node in front of a coherent cache with room. *)
Lemma push_front_coherent k (v : Value) (now : Z) c :
  coherent c -> k ∉ hashMap_ c -> currentSize_ c < capacity_ c ->
  consistent
    {| nodeList_ := {| key := k; value := v; accessTime := now |} :: nodeList_ c;
       hashMap_ := {[ k ]} ∪ hashMap_ c;
       capacity_ := capacity_ c;
       currentSize_ := wrap64 (currentSize_ c + 1);
       hitCount_ := hitCount_ c; missCount_ := missCount_ c;
       evictionCount_ := evictionCount_ c |}.
Proof.
  intros [Hnd Hkm Hsz Hr Hcap] Hk Hroom.
  assert (Hs : wrap64 (currentSize_ c + 1) = currentSize_ c + 1)
    by (apply wrap64_small; lia).
  unfold consistent. cbn. rewrite Hs. split; [split|]; cbn; unfold keys in *;
    cbn; try lia.
  - apply NoDup_cons. split; [|exact Hnd]. now rewrite <- Hkm.
  - intros k'. rewrite elem_of_union, elem_of_singleton, elem_of_cons, Hkm.
    reflexivity.
Qed.

Lemma put_consistent k (v : Value) (now : Z) c :
  consistent c -> consistent (put k v now c).
Proof.
  intros Hc. destruct (decide (k ∈ hashMap_ c)) as [Hk|Hk].
  - destruct Hc as [Hc Hb]. rewrite (put_present k v now c Hc Hk).
    split; [|exact Hb].
    apply (coherent_fields c); [| reflexivity | reflexivity | reflexivity | exact Hc].
    cbn [nodeList_]. rewrite <- (erase_assign k v now).
    rewrite (keys_front_erase k (assign k v now (nodeList_ c))).
    + apply Permutation_refl', keys_assign.
    + rewrite keys_assign. apply (keys_nodup c Hc).
    + apply node_of_assign. now apply hashMap_keys.
  - rewrite (put_absent k v now c Hk). cbn zeta.
    destruct (capacity_ c <=? currentSize_ c) eqn:E.
    + apply Z.leb_le in E.
      destruct (evictLRU_coherent c (proj1 Hc) (full_nonempty c Hc E))
        as (Hc1 & Hs1 & Hcap1 & _ & Hsub & _).
      destruct Hc as [Hc Hb].
      apply push_front_coherent; [exact Hc1 | | lia].
      intros Hin. apply Hk. now apply Hsub.
    + apply Z.leb_gt in E. apply push_front_coherent; [apply Hc | exact Hk | lia].
Qed.

Lemma get_consistent k (now : Z) c :
  consistent c -> consistent (snd (get k now c)).
Proof.
  intros [Hc Hb]. unfold get. destruct (decide (k ∈ hashMap_ c)) as [Hk|Hk]; cbn [snd].
  - split; [|exact Hb].
    apply (coherent_fields c); [| reflexivity | reflexivity | reflexivity | exact Hc].
    cbn [nodeList_].
    assert (Hnd : NoDup (key <$> touch k now (nodeList_ c)))
      by (rewrite keys_touch; apply (keys_nodup c Hc)).
    destruct (node_of_present k (touch k now (nodeList_ c))) as [n Hn].
    { rewrite keys_touch. now apply hashMap_keys. }
    rewrite (moveToFront_present k _ n Hnd Hn).
    rewrite (keys_front_erase k _ n Hnd Hn).
    apply Permutation_refl', keys_touch.
  - split; [|exact Hb].
    apply (coherent_fields c); [| reflexivity | reflexivity | reflexivity | exact Hc].
    reflexivity.
Qed.

Lemma remove_consistent k c :
  consistent c -> consistent (snd (remove k c)).
Proof.
  intros [Hc Hb]. unfold remove.
  destruct (decide (k ∈ hashMap_ c)) as [Hk|Hk]; cbn [snd]; [|now split].
  pose proof (hashMap_keys c k Hc Hk) as Hin.
  destruct Hc as [Hnd Hkm Hsz Hr Hcap]. unfold keys in *.
  pose proof (length_erase k _ Hnd Hin) as Hlen.
  assert (Hs : wrap64 (currentSize_ c - 1) = currentSize_ c - 1)
    by (apply wrap64_small; lia).
  unfold consistent. cbn. rewrite Hs. split; [split|]; cbn; unfold keys;
    cbn; try lia.
  - now apply NoDup_keys_erase.
  - intros k'. rewrite elem_of_difference, elem_of_singleton,
      elem_of_keys_erase, Hkm. tauto.
Qed.

Lemma clear_consistent c : consistent c -> consistent (clear c).
Proof.
  intros [[Hnd Hkm Hsz Hr Hcap] Hb]. split; [split|]; cbn; try lia.
  - constructor.
  - intros k. split; intros Hk; [now apply elem_of_empty in Hk
                                | now apply elem_of_nil in Hk].
Qed.

(** The loop of [resize] ends, on a coherent cache, with the size brought
    within the capacity by evictions alone. *)
Lemma resize_loop_ends (fuel : nat) c :
  coherent c -> (length (nodeList_ c) < fuel)%nat ->
  exists c', resize_loop fuel c = Some c'
             /\ consistent c' /\ capacity_ c' = capacity_ c.
Proof.
  revert c. induction fuel as [|fuel IH]; intros c Hc Hfuel; [lia|].
  cbn [resize_loop]. destruct (capacity_ c <? currentSize_ c) eqn:E.
  - apply Z.ltb_lt in E.
    assert (Hne : nodeList_ c <> []).
    { intros Hl. pose proof (size_counts c Hc) as Hsz.
      pose proof (capacity_range c Hc). rewrite Hl in Hsz. cbn in Hsz. lia. }
    destruct (evictLRU_coherent c Hc Hne) as (Hc1 & _ & Hcap1 & _ & _ & Hlen).
    destruct (IH (evictLRU c) Hc1 ltac:(lia)) as (c' & Hrun & Hc' & Hcap').
    exists c'. split; [exact Hrun|]. split; [exact Hc' | congruence].
  - apply Z.ltb_ge in E. exists c. split; [reflexivity|].
    split; [split; [exact Hc | exact E] | reflexivity].
Qed.

Lemma resize_consistent (newCapacity : Z) c :
  is_size_t newCapacity -> consistent c ->
  exists c', resize newCapacity c = Some c'
             /\ consistent c' /\ capacity_ c' = Z.max newCapacity 1.
Proof.
  intros [H0 H1] [[Hnd Hkm Hsz Hr Hcap] Hb]. unfold resize.
  apply resize_loop_ends; [|cbn; lia].
  split; cbn; try assumption. lia.
Qed.

Lemma contains_true k c : contains k c = true <-> k ∈ hashMap_ c.
Proof. unfold contains. apply bool_decide_eq_true. Qed.

Lemma contains_false k c : contains k c = false <-> k ∉ hashMap_ c.
Proof. unfold contains. apply bool_decide_eq_false. Qed.

(** C4: in a cache between two calls, [put(k, v)]
    - with [k] present, puts the node of [k], now holding [v], in front of
      the others, which keep their order, and changes neither the size nor
      the eviction count;
    - with [k] absent and room left, puts a new node in front of the list
      and the size goes up by one;
    - with [k] absent and the size equal to the capacity, first drops the
      last node of the list (the least recently used) and adds one to the
      eviction count, then puts the new node in front: the size stays. *)
Theorem put_behaviour k (v : Value) (now : Z) c :
  consistent c ->
  let c' := put k v now c in
  let node := {| key := k; value := v; accessTime := now |} in
  (contains k c = true ->
     nodeList_ c' = node :: erase k (nodeList_ c)
     /\ size c' = size c
     /\ getEvictionCount c' = getEvictionCount c)
  /\ (contains k c = false -> size c < capacity c ->
       nodeList_ c' = node :: nodeList_ c
       /\ size c' = size c + 1
       /\ getEvictionCount c' = getEvictionCount c)
  /\ (contains k c = false -> size c = capacity c ->
       exists lru,
         last (nodeList_ c) = Some lru
         /\ nodeList_ c' = node :: removelast (nodeList_ c)
         /\ contains (key lru) c' = false
         /\ size c' = size c
         /\ getEvictionCount c' = wrap64 (getEvictionCount c + 1)).
Proof.
  intros Hc c' node. unfold size, capacity, getEvictionCount. subst c' node.
  split; [|split].
  - intros Hk%contains_true. rewrite (put_present k v now c (proj1 Hc) Hk).
    cbn. auto.
  - intros Hk%contains_false Hroom. rewrite (put_absent k v now c Hk). cbn zeta.
    destruct (Z.leb_spec (capacity_ c) (currentSize_ c)) as [Hfull|_]; [lia|].
    cbn. destruct Hc as [[_ _ Hsz _ Hcap] _].
    rewrite wrap64_small by lia. auto.
  - intros Hk%contains_false Hfull. rewrite (put_absent k v now c Hk). cbn zeta.
    destruct (Z.leb_spec (capacity_ c) (currentSize_ c)) as [_|Hroom]; [|lia].
    destruct (nonempty_snoc _ (full_nonempty c Hc ltac:(lia))) as (l & lru & Hl).
    rewrite (evictLRU_last c l lru Hl). cbn. exists lru.
    rewrite Hl, last_snoc, removelast_last.
    destruct Hc as [[Hnd Hkm Hsz Hr Hcap] Hb]. unfold keys in *.
    assert (Hlru : key lru ∈ hashMap_ c).
    { apply Hkm. rewrite Hl, fmap_app, elem_of_app. right. now left. }
    assert (Hlen : 1 <= currentSize_ c).
    { rewrite Hsz, Hl, length_app. cbn. lia. }
    rewrite (wrap64_small (currentSize_ c - 1)) by lia.
    rewrite wrap64_small by lia.
    repeat split; try lia.
    apply contains_false. cbn.
    rewrite elem_of_union, elem_of_singleton, elem_of_difference,
      elem_of_singleton.
    intros [Heq|[_ Hne]]; [|now apply Hne]. apply Hk. now rewrite <- Heq.
Qed.

Lemma after_consistent c (op : Call Key Value) :
  consistent c -> call_args_ok op ->
  exists c', after c op = Some c' /\ consistent c'.
Proof.
  intros Hc Hop. destruct op as [k v now|k now|k| |n]; cbn.
  - eexists. split; [reflexivity|]. now apply put_consistent.
  - eexists. split; [reflexivity|]. now apply get_consistent.
  - eexists. split; [reflexivity|]. now apply remove_consistent.
  - eexists. split; [reflexivity|]. now apply clear_consistent.
  - destruct (resize_consistent n c Hop Hc) as (c' & Hr & Hc' & _).
    now exists c'.
Qed.

Lemma after_all_consistent c (ops : list (Call Key Value)) :
  consistent c -> Forall call_args_ok ops ->
  exists c', after_all c ops = Some c' /\ consistent c'.
Proof.
  intros Hc Hops. revert c Hc.
  induction Hops as [|op ops Hop Hops IH]; intros c Hc; cbn.
  - now exists c.
  - destruct (after_consistent c op Hc Hop) as (c1 & -> & Hc1).
    now apply IH.
Qed.

(** C8: from the constructor on, every sequence of [put], [get], [remove],
    [clear] and [resize] calls runs to its end and leaves [size()] at most
    [capacity()] and [capacity()] at least 1; a capacity of 0 asked of the
    constructor or of [resize] becomes 1. *)
Theorem size_within_capacity (askedCapacity : Z) (ops : list (Call Key Value)) :
  is_size_t askedCapacity -> Forall call_args_ok ops ->
  exists c,
    after_all (create askedCapacity) ops = Some c
    /\ size c <= capacity c
    /\ 1 <= capacity c
    /\ capacity (create (Key := Key) (Value := Value) 0) = 1
    /\ exists c0, resize 0 c = Some c0 /\ capacity c0 = 1 /\ size c0 <= 1.
Proof.
  intros Hcap Hops.
  destruct (after_all_consistent _ ops (create_coherent askedCapacity Hcap) Hops)
    as (c & Hrun & Hc).
  exists c. split; [exact Hrun|].
  pose proof (capacity_range c (proj1 Hc)) as Hrange.
  split; [exact (proj2 Hc)|]. split; [unfold capacity; lia|].
  split; [reflexivity|].
  destruct (resize_consistent 0 c ltac:(unfold is_size_t; lia) Hc)
    as (c0 & Hr & Hc0 & Hcap0).
  exists c0. split; [exact Hr|]. split; [exact Hcap0|].
  pose proof (proj2 Hc0) as Hb0. rewrite Hcap0 in Hb0. exact Hb0.
Qed.

End LRUFacts.

Section LRUExamples.
Import Storage.

(** Capacity 2: after [put 1], [put 2], a hit on 1 and [put 3], key 2 is the
    one evicted. *)
Example lru_example :
  let c := put 3 "c"%string 3
             (snd (get 1 2 (put 2 "b"%string 1
                              (put 1 "a"%string 0 (create (Key := Z) 2))))) in
  keys c = [3; 1]
  /\ contains 2 c = false
  /\ size c = 2
  /\ getEvictionCount c = 1
  /\ fst (get 1 4 c) = Some "a"%string.
Proof. vm_compute. repeat split. Qed.

(** A cache of capacity 2 holding the keys 2 (most recent) and 1. *)
Lemma full_cache_consistent :
  consistent (put 2 "b"%string 1 (put 1 "a"%string 0 (create (Key := Z) 2))).
Proof.
  apply put_consistent, put_consistent, create_coherent.
  unfold is_size_t. lia.
Defined.

Lemma put_behaviour_witness :
  let c := put 2 "b"%string 1 (put 1 "a"%string 0 (create (Key := Z) 2)) in
  let c' := put 3 "c"%string 2 c in
  consistent c
  /\ exists lru,
       last (nodeList_ c) = Some lru
       /\ nodeList_ c'
          = {| key := 3; value := "c"%string; accessTime := 2 |}
            :: removelast (nodeList_ c)
       /\ contains (key lru) c' = false
       /\ size c' = size c
       /\ getEvictionCount c' = wrap64 (getEvictionCount c + 1).
Proof.
  split; [exact full_cache_consistent|].
  refine (proj2 (proj2 (put_behaviour 3 "c"%string 2 _ full_cache_consistent))
            _ _).
  - vm_compute. reflexivity.
  - reflexivity.
Defined.

Lemma size_within_capacity_witness :
  exists c,
    after_all (create (Key := Z) 0)
      [CallPut 1 "a"%string 0; CallPut 2 "b"%string 1; CallResize 0;
       CallGet 2 2; CallResize 3; CallPut 3 "c"%string 3; CallRemove 2;
       CallClear] = Some c
    /\ size c <= capacity c
    /\ 1 <= capacity c
    /\ capacity (create (Key := Z) (Value := string) 0) = 1
    /\ exists c0, resize 0 c = Some c0 /\ capacity c0 = 1 /\ size c0 <= 1.
Proof.
  apply size_within_capacity.
  - unfold is_size_t. lia.
  - repeat constructor; unfold is_size_t; lia.
Defined.

End LRUExamples.

(** ** [FastFileSearchEngine] *)

Section EngineFacts.
Import CType Engine.

(** One turn of the loop of [IndexDirectoryOptimized]. *)
Lemma IndexDirectoryOptimized_cons
      (stop : bool) (path : string) (findData : WIN32_FIND_DATAA)
      (below : Directory) (rest : list (WIN32_FIND_DATAA * Directory))
      (ix : Index) :
  IndexDirectoryOptimized stop path (Dir ((findData, below) :: rest)) ix
  = if stop then ix
    else
      let fileName := cFileName findData in
      if String.eqb fileName "." || String.eqb fileName ".."
      then IndexDirectoryOptimized stop path (Dir rest) ix
      else
        let fullPath := String.append path (String.append backslash fileName) in
        if has_attribute (dwFileAttributes findData) FILE_ATTRIBUTE_DIRECTORY
        then
          if descends findData
          then IndexDirectoryOptimized stop path (Dir rest)
                 (IndexDirectoryOptimized stop fullPath below ix)
          else IndexDirectoryOptimized stop path (Dir rest) ix
        else IndexDirectoryOptimized stop path (Dir rest)
               (add_file fullPath findData ix).
Proof. reflexivity. Qed.

Lemma IndexDirectoryOptimized_stopped
      (path : string) (d : Directory) (ix : Index) :
  IndexDirectoryOptimized true path d ix = ix.
Proof. destruct d as [[|[findData below] rest]]; reflexivity. Qed.

Lemma descends_excluded (findData : WIN32_FIND_DATAA) :
  has_attribute (dwFileAttributes findData) FILE_ATTRIBUTE_SYSTEM = true
  \/ has_attribute (dwFileAttributes findData) FILE_ATTRIBUTE_HIDDEN = true
  \/ In (cFileName findData) system_roots ->
  descends findData = false.
Proof.
  unfold descends, system_roots. intros [Hs|[Hh|Hn]].
  - now rewrite Hs.
  - rewrite Hh. now rewrite andb_false_r.
  - cbn in Hn.
    repeat match goal with
           | H : _ \/ _ |- _ => destruct H as [H|H]
           | H : _ = cFileName findData |- _ => rewrite <- H
           end;
      try contradiction; cbn; now rewrite ?andb_false_r.
Qed.

Lemma descends_only_if (findData : WIN32_FIND_DATAA) :
  descends findData = true ->
  has_attribute (dwFileAttributes findData) FILE_ATTRIBUTE_SYSTEM = false
  /\ has_attribute (dwFileAttributes findData) FILE_ATTRIBUTE_HIDDEN = false
  /\ ~ In (cFileName findData) system_roots.
Proof.
  intros Hd. split; [|split].
  - apply not_true_is_false. intros Hs.
    rewrite descends_excluded in Hd; [discriminate | now left].
  - apply not_true_is_false. intros Hh.
    rewrite descends_excluded in Hd; [discriminate | right; now left].
  - intros Hin.
    rewrite descends_excluded in Hd; [discriminate | right; now right].
Qed.

(** C6: in the listing of a directory the entries [.] and [..] are passed
    over, and so is, with all that lies below it, a directory entry that has
    the system or the hidden attribute or whose name is one of [Windows],
    [Program Files], [Program Files (x86)], [ProgramData],
    [System Volume Information] and [$Recycle.Bin]: the crawl ends as if the
    entry were not listed.  A directory is gone into exactly when [descends]
    holds, which asks for none of these. *)
Theorem crawl_skips_entry
        (stop : bool) (path : string) (findData : WIN32_FIND_DATAA)
        (below : Directory) (rest : list (WIN32_FIND_DATAA * Directory))
        (ix : Index) :
  let listed := IndexDirectoryOptimized stop path (Dir ((findData, below) :: rest)) ix in
  let unlisted := IndexDirectoryOptimized stop path (Dir rest) ix in
  let attrs := dwFileAttributes findData in
  (cFileName findData = "."%string \/ cFileName findData = ".."%string ->
   listed = unlisted)
  /\ (has_attribute attrs FILE_ATTRIBUTE_DIRECTORY = true ->
      has_attribute attrs FILE_ATTRIBUTE_SYSTEM = true
      \/ has_attribute attrs FILE_ATTRIBUTE_HIDDEN = true
      \/ In (cFileName findData) system_roots ->
      listed = unlisted)
  /\ (descends findData = true ->
      has_attribute attrs FILE_ATTRIBUTE_SYSTEM = false
      /\ has_attribute attrs FILE_ATTRIBUTE_HIDDEN = false
      /\ ~ In (cFileName findData) system_roots).
Proof.
  cbn zeta. split; [|split].
  - intros Hdot. destruct stop.
    + now rewrite !IndexDirectoryOptimized_stopped.
    + rewrite IndexDirectoryOptimized_cons. cbn zeta.
      destruct Hdot as [Hn|Hn]; rewrite Hn; reflexivity.
  - intros Hdir Hexcluded. destruct stop.
    + now rewrite !IndexDirectoryOptimized_stopped.
    + rewrite IndexDirectoryOptimized_cons. cbn zeta.
      rewrite Hdir, (descends_excluded findData Hexcluded).
      now destruct (_ || _).
  - apply descends_only_if.
Qed.

(** A small tree: the two dot entries, a [Windows] directory and a hidden
    directory with a file each, a plain directory with a file, and a file. *)
Example crawl_example :
  let file n := {| dwFileAttributes := 32; nFileSizeHigh := 0;
                   nFileSizeLow := 7; cFileName := n |} in
  let dir a n := {| dwFileAttributes := a; nFileSizeHigh := 0;
                    nFileSizeLow := 0; cFileName := n |} in
  let leaf := Dir [] in
  let tree :=
    Dir [ (dir 16 ".", leaf); (dir 16 "..", leaf);
          (dir 16 "Windows", Dir [(file "win.ini", leaf)]);
          (dir 18 "cache", Dir [(file "blob", leaf)]);
          (dir 16 "Docs", Dir [(dir 16 ".", leaf); (file "Plan.TXT", leaf)]);
          (file "b.txt", leaf) ]%string in
  map lowerName
      (m_fileIndex
         (IndexDirectoryOptimized false "C:" tree
            {| m_fileIndex := []; m_indexedFiles := 0 |}))
  = [ "plan.txt"; "b.txt" ]%string.
Proof. reflexivity. Qed.

(** As long as fewer than 100 paths are collected, the loop of
    [SearchInstant] ends with the first 100 of: the paths collected, then the
    paths of the files that match, in index order. *)
Lemma scan_firstn (lowerQuery : string) (files : list FileInfo)
      (results : list string) :
  (length results < 100)%nat ->
  scan lowerQuery files results
  = firstn 100 (results ++ map path (List.filter (hit lowerQuery) files)).
Proof.
  revert results. induction files as [|file files IH]; intros results Hlen.
  - cbn. rewrite app_nil_r. symmetry. apply firstn_all2. lia.
  - cbn [scan List.filter]. unfold hit at 1.
    destruct (find (lowerName file) lowerQuery) as [pos|].
    + cbn [map].
      destruct (Z.leb_spec 100 (Z.of_nat (length (results ++ [path file]))))
        as [Hfull|Hroom]; rewrite length_app in *; cbn [length] in *.
      * rewrite firstn_app, (firstn_all2 results) by lia.
        replace (100 - length results)%nat with 1%nat by lia. reflexivity.
      * rewrite IH by (rewrite length_app; cbn; lia).
        now rewrite <- app_assoc.
    + now apply IH.
Qed.

Lemma scan_counting_fst (lowerQuery : string) (files : list FileInfo)
      (results : list string) (looked : nat) :
  fst (scan_counting lowerQuery files results looked)
  = scan lowerQuery files results.
Proof.
  revert results looked. induction files as [|file files IH];
    intros results looked; cbn; [reflexivity|].
  destruct (find (lowerName file) lowerQuery); [|apply IH].
  destruct (100 <=? _); [reflexivity | apply IH].
Qed.

Lemma find_empty_pattern (s : string) : find s EmptyString = Some O.
Proof. destruct s; reflexivity. Qed.

(** Had the loop run on the empty query, every file would match. *)
Lemma scan_empty_query (files : list FileInfo) :
  scan EmptyString files [] = firstn 100 (map path files).
Proof.
  rewrite scan_firstn by (cbn; lia). cbn. f_equal. f_equal.
  induction files as [|file files IH]; [reflexivity|].
  cbn. unfold hit at 1. rewrite find_empty_pattern. now rewrite IH.
Qed.

(** C10: [SearchInstant] returns at most 100 paths, however many files of
    the index match: the first 100 matching ones in index order.  On the
    empty query it returns the empty list and looks at no entry of the
    index. *)
Theorem SearchInstant_at_most_100 (query : string) (m_fileIndex : list FileInfo) :
  (length (SearchInstant query m_fileIndex) <= 100)%nat
  /\ SearchInstant query m_fileIndex
     = (if empty query then []
        else firstn 100
               (map path (List.filter (hit (transform_tolower query)) m_fileIndex)))
  /\ SearchInstant EmptyString m_fileIndex = []
  /\ SearchInstant_counting EmptyString m_fileIndex = ([], O)
  /\ fst (SearchInstant_counting query m_fileIndex)
     = SearchInstant query m_fileIndex.
Proof.
  assert (Heq : SearchInstant query m_fileIndex
                = (if empty query then []
                   else firstn 100
                          (map path (List.filter (hit (transform_tolower query))
                                                 m_fileIndex)))).
  { unfold SearchInstant. destruct query as [|c query]; [reflexivity|].
    cbn [empty orb]. destruct (Z.ltb_spec (Z.of_nat (String.length (String c query))) 1)
      as [Hlen|_]; [cbn in Hlen; lia|].
    rewrite scan_firstn by (cbn; lia). reflexivity. }
  split; [|split; [exact Heq | split; [reflexivity | split; [reflexivity|]]]].
  - rewrite Heq. destruct (empty query); [cbn; lia | apply firstn_le_length].
  - unfold SearchInstant_counting, SearchInstant.
    destruct (empty query || _); [reflexivity | apply scan_counting_fst].
Qed.

End EngineFacts.

(** * Further properties of the same code *)

(** ** Tokens of [FileEntry::updateTokens] *)

Section Tokens.
Import CType Core.

Lemma all_chars_push_back (p : ascii -> bool) (s : string) (c : ascii) :
  all_chars p (push_back s c) = all_chars p s && p c.
Proof.
  unfold push_back. induction s as [|a s IH].
  - change (String.append EmptyString ?x) with x. cbn. now rewrite andb_true_r.
  - rewrite append_cons. cbn [all_chars]. rewrite IH. now rewrite andb_assoc.
Qed.

Lemma push_back_not_empty (s : string) (c : ascii) : empty (push_back s c) = false.
Proof. destruct s; reflexivity. Qed.

Lemma lower_alnum_not_space (c : ascii) :
  lower_alnum c = true -> isspace c = false.
Proof. destruct c as [[] [] [] [] [] [] [] []]; vm_compute; congruence. Qed.

Lemma tolower_alnum_lower (c : ascii) :
  isalnum c = true -> lower_alnum (tolower c) = true.
Proof. destruct c as [[] [] [] [] [] [] [] []]; vm_compute; congruence. Qed.

Lemma isspace_space : isspace " " = true.
Proof. reflexivity. Qed.

Lemma normalize_each_chars (s : string) :
  all_chars normalized_char (normalize_each s) = true.
Proof.
  induction s as [|c s IH]; [reflexivity|]. cbn.
  destruct (isalnum c) eqn:Ea.
  - cbn. rewrite IH. unfold normalized_char.
    rewrite (tolower_alnum_lower c Ea). now rewrite orb_true_r.
  - destruct (is_separator c); [cbn; now rewrite IH | exact IH].
Qed.

Lemma extract_name_tokens (s cur : string) :
  all_chars lower_alnum cur = true ->
  all_chars normalized_char s = true ->
  Forall (fun t => name_token t = true) (extract cur s).
Proof.
  revert cur. induction s as [|c s IH]; intros cur Hcur Hs; cbn.
  - destruct (empty cur) eqn:E; constructor; [|constructor].
    unfold name_token. now rewrite E, Hcur.
  - cbn in Hs. apply andb_true_iff in Hs as [Hc Hs].
    destruct (isspace c) eqn:Esp.
    + destruct (empty cur) eqn:E; [now apply IH|].
      constructor; [|now apply IH].
      unfold name_token. now rewrite E, Hcur.
    + apply IH; [|exact Hs]. rewrite all_chars_push_back, Hcur.
      unfold normalized_char in Hc. apply orb_true_iff in Hc as [Hc|Hc];
        [|exact Hc].
      unfold is_space in Hc. apply Ascii.eqb_eq in Hc. subst c.
      discriminate.
Qed.

(** In a string of spaces and lower-case alphanumerics, a run of spaces
    separates tokens like a single one does. *)
Lemma extract_collapse (s cur : string) (in_run : bool) :
  (in_run = true -> cur = EmptyString) ->
  extract cur (normalize_each s) = extract cur (collapse_runs in_run s).
Proof.
  revert cur in_run. induction s as [|c s IH]; intros cur in_run Hrun;
    [reflexivity|].
  cbn [normalize_each collapse_runs]. destruct (isalnum c) eqn:Ea.
  - cbn [extract].
    rewrite (lower_alnum_not_space _ (tolower_alnum_lower c Ea)).
    apply IH. discriminate.
  - destruct (is_separator c).
    + cbn [extract]. rewrite isspace_space. destruct in_run.
      * rewrite (Hrun eq_refl). cbn [empty]. now apply IH.
      * cbn [extract]. rewrite isspace_space.
        destruct (empty cur); [|f_equal]; now apply IH.
    + now apply IH.
Qed.

(** The tokens of a file entry are those of the name with its runs of
    separators collapsed, then the extension in lower case; the tokens that
    come from the name are not empty and hold digits and lower-case letters
    only.  A file entry without a name gets no token at all, not even its
    extension. *)
Theorem updateTokens_tokens (e : FileEntry) :
  exists from_name,
    tokens (updateTokens e)
    = from_name
      ++ (if empty (fileName e) || empty (extension e) then []
          else [transform_tolower (extension e)])
    /\ from_name = extract EmptyString (normalized_name_spec (fileName e))
    /\ Forall (fun t => name_token t = true) from_name.
Proof.
  exists (extract EmptyString (normalize_each (fileName e))).
  split; [|split].
  - unfold updateTokens. destruct (empty (fileName e)) eqn:E.
    + destruct (fileName e); [reflexivity | discriminate].
    + cbn [tokens with_index_fields orb]. rewrite normalize_loop_append.
      change (String.append EmptyString ?x) with x.
      destruct (empty (extension e)); cbn [negb]; [now rewrite app_nil_r|].
      reflexivity.
  - apply extract_collapse. discriminate.
  - apply extract_name_tokens; [reflexivity | apply normalize_each_chars].
Qed.

(** [updateTokens] reads the name and the extension only: running it again
    changes nothing. *)
Theorem updateTokens_idempotent (e : FileEntry) :
  updateTokens (updateTokens e) = updateTokens e.
Proof.
  unfold updateTokens at 1 3.
  replace (fileName (updateTokens e)) with (fileName e)
    by (unfold updateTokens; now destruct (empty (fileName e))).
  replace (extension (updateTokens e)) with (extension e)
    by (unfold updateTokens; now destruct (empty (fileName e))).
  unfold updateTokens. destruct (empty (fileName e)); reflexivity.
Qed.

End Tokens.

(** ** The other sort orders of [SearchResults] *)

Section OtherSorts.
Import CType Core.

Lemma StronglySorted_impl {A : Type} (R S : A -> A -> Prop) (l : list A) :
  (forall x y, R x y -> S x y) -> StronglySorted R l -> StronglySorted S l.
Proof.
  intros HRS. induction 1 as [|x l Hs IH Hx]; constructor; [exact IH|].
  eapply Forall_impl; [exact Hx|]. intros y. apply HRS.
Qed.

Lemma string_ltb_asym (a b : string) :
  string_ltb a b = true -> string_ltb b a = false.
Proof.
  unfold string_ltb. rewrite (String.compare_antisym b a).
  destruct (String.compare a b); cbn; congruence.
Qed.

Lemma string_ltb_leb (a b : string) :
  string_ltb b a = false <-> String.leb a b = true.
Proof.
  unfold string_ltb, String.leb. rewrite (String.compare_antisym b a).
  destruct (String.compare a b); cbn; split; congruence.
Qed.

Lemma string_leb_trans (a b c : string) :
  String.leb a b = true -> String.leb b c = true -> String.leb a c = true.
Proof.
  intros Hab Hbc. apply Is_true_true.
  apply Is_true_true in Hab, Hbc.
  exact (transitivity (R := String.le) Hab Hbc).
Qed.

Lemma string_ltb_negtrans (a b c : string) :
  string_ltb a b = false -> string_ltb b c = false -> string_ltb a c = false.
Proof.
  rewrite !string_ltb_leb. intros Hba Hcb. now apply (string_leb_trans c b a).
Qed.

(** [sortByName] leaves the same results in ascending order of file name,
    the order being that of [std::string] (byte values, so upper case before
    lower case), and changes nothing else. *)
Theorem sortByName_ascending (r : SearchResults) :
  Permutation (results_ r) (results_ (sortByName r))
  /\ StronglySorted
       (fun x y => String.leb (fileName (entry x)) (fileName (entry y)) = true)
       (results_ (sortByName r))
  /\ query_ (sortByName r) = query_ r
  /\ searchTime_ (sortByName r) = searchTime_ r
  /\ totalMatches_ (sortByName r) = totalMatches_ r.
Proof.
  split; [apply std_sort_perm|]. split; [|repeat split].
  apply (StronglySorted_impl (fun x y => by_name y x = false)).
  { intros x y. unfold by_name. apply string_ltb_leb. }
  apply (std_sort_sorted by_name (fun _ => True)).
  - intros x y. apply string_ltb_asym.
  - intros x y z _ _ _. apply string_ltb_negtrans.
  - apply Forall_forall. trivial.
Qed.

(** [sortBySize] and [sortByModified] leave the same results with the
    largest size, respectively the latest modification time, first. *)
Theorem sortBySize_sortByModified_descending (r : SearchResults) :
  (Permutation (results_ r) (results_ (sortBySize r))
   /\ StronglySorted (fun x y => size (entry y) <= size (entry x))
                     (results_ (sortBySize r)))
  /\ (Permutation (results_ r) (results_ (sortByModified r))
      /\ StronglySorted
           (fun x y => lastModified (entry y) <= lastModified (entry x))
           (results_ (sortByModified r))).
Proof.
  split; (split; [apply std_sort_perm|]).
  - apply (StronglySorted_impl (fun x y => by_size y x = false)).
    { intros x y. unfold by_size. apply Z.ltb_ge. }
    apply (std_sort_sorted by_size (fun _ => True)).
    + intros x y. unfold by_size. rewrite Z.ltb_lt, Z.ltb_ge. lia.
    + intros x y z _ _ _. unfold by_size. rewrite !Z.ltb_ge. lia.
    + apply Forall_forall. trivial.
  - apply (StronglySorted_impl (fun x y => by_modified y x = false)).
    { intros x y. unfold by_modified. apply Z.ltb_ge. }
    apply (std_sort_sorted by_modified (fun _ => True)).
    + intros x y. unfold by_modified. rewrite Z.ltb_lt, Z.ltb_ge. lia.
    + intros x y z _ _ _. unfold by_modified. rewrite !Z.ltb_ge. lia.
    + apply Forall_forall. trivial.
Qed.

End OtherSorts.

(** ** [AppSettings] *)

Section Settings.
Import Double CType Core.

Lemma removeEmpty_idempotent (vec : list string) :
  removeEmpty (removeEmpty vec) = removeEmpty vec.
Proof.
  unfold removeEmpty. induction vec as [|s vec IH]; [reflexivity|].
  cbn. destruct (empty s) eqn:E; cbn; [exact IH|]. rewrite E. cbn.
  now rewrite IH.
Qed.

Lemma clamp_idempotent (f : double) :
  let f' := std_max zero (std_min one f) in
  std_max zero (std_min one f') = f'.
Proof.
  unfold std_max, std_min.
  destruct (lt f one) eqn:E1.
  - destruct (lt zero f) eqn:E0.
    + now rewrite E1, E0.
    + reflexivity.
  - reflexivity.
Qed.

(** [sanitize] is idempotent: settings that went through it are left as
    they are by a second run. *)
Theorem sanitize_idempotent (s : AppSettings) :
  sanitize (sanitize s) = sanitize s.
Proof.
  unfold sanitize. cbn.
  rewrite !removeEmpty_idempotent, (clamp_idempotent (as_fuzzyThreshold s)).
  f_equal; lia.
Qed.

(** The default settings pass [validate] exactly on machines that report at
    most 32 hardware threads: above that, [setDefaults] sets a thread count
    that [validate] rejects. *)
Theorem setDefaults_validate (hardware_concurrency : Z) (s : AppSettings) :
  validate (setDefaults hardware_concurrency s) = true
  <-> hardware_concurrency <= 32.
Proof.
  unfold validate, setDefaults. cbn.
  destruct (Z.eqb_spec (Z.max 2 hardware_concurrency) 0) as [H0|_]; [lia|].
  destruct (Z.ltb_spec 32 (Z.max 2 hardware_concurrency)) as [Hbig|Hok]; cbn.
  - split; [discriminate | lia].
  - split; [lia | reflexivity].
Qed.

End Settings.

(** ** More on [ThreadSafeQueue] *)

Section QueueMore.
Import Utils.
Context {T : Type}.

Lemma pushes_append (q : ThreadSafeQueue T) (items : list T) :
  shutdown_ q = false ->
  after_all q (CallPush <$> items)
  = {| queue_ := queue_ q ++ items; shutdown_ := false |}.
Proof.
  unfold after_all. revert q. induction items as [|x items IH];
    intros [queued flag] Hq; cbn in Hq; subst flag.
  - cbn. now rewrite app_nil_r.
  - cbn [fmap list_fmap fold_left after push shutdown_ queue_ snd].
    rewrite IH by reflexivity. cbn. now rewrite <- app_assoc.
Qed.

Lemma tryPop_n_drains (q : ThreadSafeQueue T) (extra : nat) :
  tryPop_n (length (queue_ q) + extra) q
  = ((Some <$> queue_ q) ++ repeat None extra,
     {| queue_ := []; shutdown_ := shutdown_ q |}).
Proof.
  destruct q as [items flag]. cbn [queue_ shutdown_].
  induction items as [|x items IH]; cbn [length Nat.add].
  - induction extra as [|extra IHe]; [reflexivity|].
    cbn [tryPop_n repeat]. unfold tryPop at 1. cbn [queue_].
    now rewrite IHe.
  - cbn [tryPop_n]. unfold tryPop at 1. cbn [queue_ shutdown_].
    now rewrite IH.
Qed.

(** First in, first out: on a running queue the items pushed come out of
    [tryPop] in the order of the pushes, after those that were queued
    already, and once they are out every further [tryPop] gives nothing. *)
Theorem queue_is_fifo (q : ThreadSafeQueue T) (items : list T) (extra : nat) :
  shutdown_ q = false ->
  let q' := after_all q (CallPush <$> items) in
  size q' = size q + Z.of_nat (length items)
  /\ tryPop_n (length (queue_ q ++ items) + extra) q'
     = ((Some <$> (queue_ q ++ items)) ++ repeat None extra,
        {| queue_ := []; shutdown_ := false |}).
Proof.
  intros Hq q'. subst q'. rewrite (pushes_append q items Hq). split.
  - unfold size. cbn. rewrite length_app. lia.
  - exact (tryPop_n_drains {| queue_ := queue_ q ++ items; shutdown_ := false |}
                           extra).
Qed.

(** The blocking [pop] waits exactly on an empty queue that is not shut
    down; whenever it returns, it returns what [tryPop] returns in the same
    state and leaves the same queue. *)
Theorem pop_agrees_with_tryPop (q : ThreadSafeQueue T) :
  match pop q with
  | Waits => queue_ q = [] /\ shutdown_ q = false /\ tryPop q = (None, q)
  | Returns r q' =>
      tryPop q = (r, q') /\ (queue_ q = [] -> shutdown_ q = true)
  end.
Proof.
  unfold pop, tryPop. destruct (queue_ q) as [|front rest] eqn:E.
  - destruct (shutdown_ q); cbn; auto.
  - cbn. split; [reflexivity | discriminate].
Qed.

(** What is pushed between [shutdown] and [restart] is lost; the items
    queued before are kept, and after [restart] pushes are taken again. *)
Theorem restart_reopens (q : ThreadSafeQueue T) (lost later : list T) :
  after_all (shutdown q)
            ((CallPush <$> lost) ++ CallRestart :: (CallPush <$> later))
  = {| queue_ := queue_ q ++ later; shutdown_ := false |}.
Proof.
  unfold after_all. rewrite fold_left_app. cbn [fold_left].
  assert (Hlost : fold_left after (CallPush <$> lost) (shutdown q) = shutdown q).
  { induction lost as [|x lost IH]; [reflexivity|]. cbn. exact IH. }
  rewrite Hlost. cbn [after].
  exact (pushes_append (restart (shutdown q)) later eq_refl).
Qed.

End QueueMore.

Section QueueMoreExamples.
Import Utils.

Lemma queue_is_fifo_witness :
  let q : ThreadSafeQueue Z := {| queue_ := [1]; shutdown_ := false |} in
  shutdown_ q = false
  /\ size (after_all q (CallPush <$> [2; 3])) = size q + 2
  /\ tryPop_n 4 (after_all q (CallPush <$> [2; 3]))
     = ([Some 1; Some 2; Some 3; None], {| queue_ := []; shutdown_ := false |}).
Proof.
  split; [reflexivity|].
  exact (queue_is_fifo {| queue_ := [1]; shutdown_ := false |} [2; 3] 1 eq_refl).
Defined.

End QueueMoreExamples.

(** ** More on [LRUCache] *)

Section LRUMore.
Import Storage.
Context {Key : Type} `{Countable Key} {Value : Type}.
Implicit Types (l : list (CacheNode Key Value)) (n : CacheNode Key Value).
Implicit Types (c : LRUCache Key Value) (k : Key).

Lemma erase_touch k (now : Z) l : erase k (touch k now l) = erase k l.
Proof.
  induction l as [|n l IH]; [reflexivity|].
  change (touch k now (n :: l))
    with ((if has_key k n
           then {| key := key n; value := value n; accessTime := now |}
           else n) :: touch k now l).
  rewrite !erase_cons, IH. destruct (has_key k n) eqn:E.
  - change (has_key k {| key := key n; value := value n; accessTime := now |})
      with (has_key k n). now rewrite E.
  - now rewrite E.
Qed.

Lemma node_of_touch k (now : Z) l n :
  node_of k l = Some n ->
  node_of k (touch k now l)
  = Some {| key := k; value := value n; accessTime := now |}.
Proof.
  induction l as [|m l IH]; [discriminate|].
  change (touch k now (m :: l))
    with ((if has_key k m
           then {| key := key m; value := value m; accessTime := now |}
           else m) :: touch k now l).
  rewrite !node_of_cons. destruct (has_key k m) eqn:E.
  - change (has_key k {| key := key m; value := value m; accessTime := now |})
      with (has_key k m). rewrite E. intros [= <-].
    apply has_key_true in E. now rewrite E.
  - rewrite E. exact IH.
Qed.

Lemma node_of_erase_ne k k' l :
  k' <> k -> node_of k' (erase k l) = node_of k' l.
Proof.
  intros Hne. induction l as [|n l IH]; [reflexivity|].
  rewrite erase_cons, node_of_cons. destruct (has_key k n) eqn:E.
  - apply has_key_true in E.
    destruct (has_key k' n) eqn:E'; [|exact IH].
    apply has_key_true in E'. congruence.
  - rewrite node_of_cons. now destruct (has_key k' n).
Qed.

Lemma node_of_snoc_ne k' l n :
  key n <> k' -> node_of k' (l ++ [n]) = node_of k' l.
Proof.
  intros Hne. induction l as [|m l IH]; cbn [app].
  - rewrite node_of_cons. apply has_key_false in Hne. now rewrite Hne.
  - rewrite !node_of_cons. now destruct (has_key k' m).
Qed.

Lemma node_of_absent k l : k ∉ key <$> l -> node_of k l = None.
Proof.
  induction l as [|n l IH]; intros Hk; [reflexivity|].
  rewrite fmap_cons, not_elem_of_cons in Hk. destruct Hk as [Hn Hl].
  rewrite node_of_cons. destruct (has_key k n) eqn:E; [|now apply IH].
  apply has_key_true in E. congruence.
Qed.

(** What [get] does on a hit and on a miss. *)
Theorem get_behaviour k (now : Z) c :
  consistent c ->
  (contains k c = false ->
     fst (get k now c) = None
     /\ nodeList_ (snd (get k now c)) = nodeList_ c
     /\ getMissCount (snd (get k now c)) = wrap64 (getMissCount c + 1)
     /\ getHitCount (snd (get k now c)) = getHitCount c)
  /\ (contains k c = true ->
      exists n,
        node_of k (nodeList_ c) = Some n
        /\ fst (get k now c) = Some (value n)
        /\ nodeList_ (snd (get k now c))
           = {| key := k; value := value n; accessTime := now |}
             :: erase k (nodeList_ c)
        /\ getHitCount (snd (get k now c)) = wrap64 (getHitCount c + 1)
        /\ getMissCount (snd (get k now c)) = getMissCount c
        /\ size (snd (get k now c)) = size c).
Proof.
  intros [Hc Hb]. split.
  - intros Hk%contains_false. unfold get.
    destruct (decide (k ∈ hashMap_ c)); [contradiction|]. cbn. repeat split.
  - intros Hk%contains_true. unfold get.
    destruct (decide (k ∈ hashMap_ c)); [|contradiction]. cbn [fst snd].
    destruct (node_of_present k (nodeList_ c) (hashMap_keys c k Hc Hk))
      as [n Hn].
    exists n. rewrite Hn. cbn.
    rewrite (moveToFront_present k _ _
               ltac:(rewrite keys_touch; apply (keys_nodup c Hc))
               (node_of_touch k now _ n Hn)).
    rewrite erase_touch. repeat split.
Qed.

(** Insert then look up: right after [put(k, v)] a [get(k)] hits and
    returns [v]. *)
Theorem put_then_get k (v : Value) (now later : Z) c :
  consistent c ->
  contains k (put k v now c) = true
  /\ fst (get k later (put k v now c)) = Some v.
Proof.
  intros Hc.
  assert (Hput : exists rest,
             nodeList_ (put k v now c)
             = {| key := k; value := v; accessTime := now |} :: rest
             /\ k ∈ hashMap_ (put k v now c)).
  { destruct (decide (k ∈ hashMap_ c)) as [Hk|Hk].
    - rewrite (put_present k v now c (proj1 Hc) Hk). cbn. eauto.
    - rewrite (put_absent k v now c Hk). cbn. eexists. split; [reflexivity|].
      apply elem_of_union. left. now apply elem_of_singleton. }
  destruct Hput as (rest & Hl & Hk). split; [now apply contains_true|].
  unfold get. destruct (decide (k ∈ hashMap_ (put k v now c))); [|contradiction].
  cbn [fst]. rewrite Hl, node_of_cons.
  assert (E : has_key k {| key := k; value := v; accessTime := now |} = true)
    by now apply has_key_true.
  now rewrite E.
Qed.

(** A [put] leaves the values of the other keys alone: every other key that
    is still in the cache afterwards holds the value it held before. *)
Theorem put_keeps_other_values k k' (v : Value) (now : Z) c :
  consistent c -> k' <> k ->
  contains k' (put k v now c) = true ->
  stored k' (put k v now c) = stored k' c
  /\ contains k' c = true.
Proof.
  intros Hc Hne Hin%contains_true. unfold stored.
  assert (Hhead : has_key k' {| key := k; value := v; accessTime := now |} = false)
    by (apply has_key_false; cbn; congruence).
  destruct (decide (k ∈ hashMap_ c)) as [Hk|Hk].
  - rewrite (put_present k v now c (proj1 Hc) Hk) in *.
    cbn [nodeList_ hashMap_] in *.
    rewrite node_of_cons, Hhead, node_of_erase_ne by exact Hne.
    split; [reflexivity | now apply contains_true].
  - rewrite (put_absent k v now c Hk) in *. cbn zeta in *.
    destruct (Z.leb_spec (capacity_ c) (currentSize_ c)) as [Hfull|Hroom].
    + destruct (nonempty_snoc _ (full_nonempty c Hc Hfull)) as (l & lru & Hl).
      rewrite (evictLRU_last c l lru Hl) in *. cbn [nodeList_ hashMap_] in *.
      rewrite elem_of_union, elem_of_singleton, elem_of_difference,
        elem_of_singleton in Hin.
      destruct Hin as [Hin|[Hin Hlru]]; [contradiction|].
      rewrite node_of_cons, Hhead, Hl, node_of_snoc_ne by congruence.
      split; [reflexivity | now apply contains_true].
    + cbn [nodeList_ hashMap_] in *.
      rewrite elem_of_union, elem_of_singleton in Hin.
      destruct Hin as [Hin|Hin]; [contradiction|].
      rewrite node_of_cons, Hhead.
      split; [reflexivity | now apply contains_true].
Qed.

(** [remove(k)]: with [k] present it answers true, takes the node of [k]
    out, the others keeping their order, and the size goes down by one;
    with [k] absent it answers false and changes nothing.  Other keys keep
    their values either way. *)
Theorem remove_behaviour k c :
  consistent c ->
  (contains k c = false -> remove k c = (false, c))
  /\ (contains k c = true ->
      fst (remove k c) = true
      /\ nodeList_ (snd (remove k c)) = erase k (nodeList_ c)
      /\ contains k (snd (remove k c)) = false
      /\ size (snd (remove k c)) = size c - 1)
  /\ (forall k', k' <> k -> stored k' (snd (remove k c)) = stored k' c).
Proof.
  intros [Hc Hb]. split; [|split].
  - intros Hk%contains_false. unfold remove.
    now destruct (decide (k ∈ hashMap_ c)).
  - intros Hk%contains_true. unfold remove.
    destruct (decide (k ∈ hashMap_ c)); [|contradiction]. cbn.
    repeat split.
    + apply contains_false. cbn. rewrite elem_of_difference, elem_of_singleton.
      tauto.
    + unfold size. cbn. apply wrap64_small.
      pose proof (hashMap_keys c k Hc Hk) as Hin.
      pose proof (length_erase k _ (keys_nodup c Hc) Hin) as Hlen.
      pose proof (size_counts c Hc). pose proof (size_range c Hc). lia.
  - intros k' Hne. unfold stored, remove.
    destruct (decide (k ∈ hashMap_ c)); cbn [snd nodeList_]; [|reflexivity].
    now rewrite node_of_erase_ne.
Qed.

Lemma wrap64_add_l (a b : Z) : wrap64 (wrap64 a + b) = wrap64 (a + b).
Proof. unfold wrap64. apply Zplus_mod_idemp_l. Qed.

(** The loop of [resize] drops nodes from the back until the size fits. *)
Lemma resize_loop_firstn (fuel : nat) c :
  coherent c -> (length (nodeList_ c) < fuel)%nat ->
  exists c',
    resize_loop fuel c = Some c'
    /\ capacity_ c' = capacity_ c
    /\ nodeList_ c' = firstn (Z.to_nat (capacity_ c)) (nodeList_ c)
    /\ currentSize_ c' = Z.min (currentSize_ c) (capacity_ c)
    /\ wrap64 (evictionCount_ c')
       = wrap64 (evictionCount_ c + (currentSize_ c - currentSize_ c')).
Proof.
  revert c. induction fuel as [|fuel IH]; intros c Hc Hfuel; [lia|].
  pose proof (size_counts c Hc) as Hsz.
  pose proof (capacity_range c Hc) as Hcap.
  cbn [resize_loop]. destruct (Z.ltb_spec (capacity_ c) (currentSize_ c)) as [E|E].
  - assert (Hne : nodeList_ c <> []).
    { intros Hl. rewrite Hl in Hsz. cbn in Hsz. lia. }
    destruct (evictLRU_coherent c Hc Hne) as (Hc1 & Hs1 & Hcap1 & He1 & _ & Hlen).
    destruct (nonempty_snoc _ Hne) as (l & lru & Hl).
    destruct (IH (evictLRU c) Hc1 ltac:(lia)) as (c' & Hrun & Hcap' & Hl' & Hs' & He').
    exists c'. split; [exact Hrun|]. split; [congruence|].
    rewrite Hcap1 in Hl', Hs'. rewrite He1, Hs1, wrap64_add_l in He'.
    rewrite (evictLRU_last c l lru Hl) in Hl'. cbn [nodeList_] in Hl'.
    rewrite Hl in Hsz. rewrite length_app in Hsz. cbn in Hsz.
    split; [|split].
    + rewrite Hl', Hl, firstn_app.
      replace (Z.to_nat (capacity_ c) - length l)%nat with O by lia.
      cbn. now rewrite app_nil_r.
    + lia.
    + rewrite He'. f_equal. lia.
  - exists c. split; [reflexivity|]. split; [reflexivity|]. split; [|split].
    + symmetry. apply firstn_all2. lia.
    + lia.
    + f_equal. lia.
Qed.

(** [resize(n)] keeps the most recently used entries, as many as the new
    capacity (at least 1) allows, in their order, and counts each dropped
    entry as an eviction. *)
Theorem resize_keeps_most_recent (newCapacity : Z) c :
  is_size_t newCapacity -> consistent c ->
  exists c',
    resize newCapacity c = Some c'
    /\ capacity c' = Z.max newCapacity 1
    /\ nodeList_ c'
       = firstn (Z.to_nat (Z.max newCapacity 1)) (nodeList_ c)
    /\ size c' = Z.min (size c) (Z.max newCapacity 1)
    /\ wrap64 (getEvictionCount c')
       = wrap64 (getEvictionCount c + (size c - size c')).
Proof.
  intros [H0 H1] [[Hnd Hkm Hsz Hr Hcap] Hb]. unfold resize.
  apply (resize_loop_firstn _
           {| nodeList_ := nodeList_ c; hashMap_ := hashMap_ c;
              capacity_ := Z.max newCapacity 1;
              currentSize_ := currentSize_ c;
              hitCount_ := hitCount_ c; missCount_ := missCount_ c;
              evictionCount_ := evictionCount_ c |}); [|cbn; lia].
  split; cbn; try assumption. lia.
Qed.

(** Whatever calls were made since the constructor, the cache holds every
    key at most once, [contains] answers true exactly for the keys of the
    nodes, and [size()] is the number of nodes. *)
Theorem keys_stay_distinct (askedCapacity : Z) (ops : list (Call Key Value)) :
  is_size_t askedCapacity -> Forall call_args_ok ops ->
  exists c,
    after_all (create askedCapacity) ops = Some c
    /\ NoDup (keys c)
    /\ (forall k, contains k c = true <-> k ∈ keys c)
    /\ size c = Z.of_nat (length (nodeList_ c)).
Proof.
  intros Hcap Hops.
  destruct (after_all_consistent _ ops (create_coherent askedCapacity Hcap) Hops)
    as (c & Hrun & [[Hnd Hkm Hsz Hr Hc] Hb]).
  exists c. split; [exact Hrun|]. split; [exact Hnd|]. split; [|exact Hsz].
  intros k. rewrite contains_true. apply Hkm.
Qed.

End LRUMore.

Section LRUMoreExamples.
Import Storage.

Lemma get_behaviour_witness :
  let c := put 2 "b"%string 1 (put 1 "a"%string 0 (create (Key := Z) 2)) in
  consistent c
  /\ fst (get 3 5 c) = None
  /\ exists n,
       node_of 1 (nodeList_ c) = Some n
       /\ fst (get 1 5 c) = Some (value n)
       /\ nodeList_ (snd (get 1 5 c))
          = {| key := 1; value := value n; accessTime := 5 |}
            :: erase 1 (nodeList_ c)
       /\ getHitCount (snd (get 1 5 c)) = wrap64 (getHitCount c + 1)
       /\ getMissCount (snd (get 1 5 c)) = getMissCount c
       /\ size (snd (get 1 5 c)) = size c.
Proof.
  split; [exact full_cache_consistent|]. split; [reflexivity|].
  refine (proj2 (get_behaviour 1 5 _ full_cache_consistent) _).
  vm_compute. reflexivity.
Defined.

Lemma put_then_get_witness :
  let c := put 2 "b"%string 1 (put 1 "a"%string 0 (create (Key := Z) 2)) in
  consistent c
  /\ contains 3 (put 3 "c"%string 2 c) = true
  /\ fst (get 3 4 (put 3 "c"%string 2 c)) = Some "c"%string.
Proof.
  split; [exact full_cache_consistent|].
  exact (put_then_get 3 "c"%string 2 4 _ full_cache_consistent).
Defined.

Lemma put_keeps_other_values_witness :
  let c := put 2 "b"%string 1 (put 1 "a"%string 0 (create (Key := Z) 2)) in
  consistent c /\ 2 <> 3
  /\ contains 2 (put 3 "c"%string 2 c) = true
  /\ stored 2 (put 3 "c"%string 2 c) = Some "b"%string.
Proof.
  split; [exact full_cache_consistent|].
  assert (Hne : (2 : Z) <> 3) by lia.
  assert (Hin : contains 2 (put 3 "c"%string 2
                   (put 2 "b"%string 1 (put 1 "a"%string 0 (create (Key := Z) 2))))
                = true) by (vm_compute; reflexivity).
  split; [exact Hne|]. split; [exact Hin|].
  exact (proj1 (put_keeps_other_values 3 2 "c"%string 2 _
                  full_cache_consistent Hne Hin)).
Defined.

Lemma remove_behaviour_witness :
  let c := put 2 "b"%string 1 (put 1 "a"%string 0 (create (Key := Z) 2)) in
  consistent c
  /\ remove 7 c = (false, c)
  /\ fst (remove 1 c) = true
  /\ contains 1 (snd (remove 1 c)) = false
  /\ size (snd (remove 1 c)) = size c - 1
  /\ stored 2 (snd (remove 1 c)) = stored 2 c.
Proof.
  split; [exact full_cache_consistent|].
  pose proof (remove_behaviour 7 _ full_cache_consistent) as [Habsent _].
  pose proof (remove_behaviour 1 _ full_cache_consistent) as (_ & Hpresent & Hother).
  split; [apply Habsent; vm_compute; reflexivity|].
  destruct (Hpresent ltac:(vm_compute; reflexivity)) as (Ht & _ & Hc & Hs).
  split; [exact Ht|]. split; [exact Hc|]. split; [exact Hs|].
  apply Hother. lia.
Defined.

Lemma resize_keeps_most_recent_witness :
  let c := put 2 "b"%string 1 (put 1 "a"%string 0 (create (Key := Z) 2)) in
  is_size_t 1 /\ consistent c
  /\ exists c',
       resize 1 c = Some c'
       /\ capacity c' = 1
       /\ nodeList_ c' = firstn 1 (nodeList_ c)
       /\ size c' = Z.min (size c) 1
       /\ wrap64 (getEvictionCount c')
          = wrap64 (getEvictionCount c + (size c - size c')).
Proof.
  assert (H1 : is_size_t 1) by (unfold is_size_t; lia).
  split; [exact H1|]. split; [exact full_cache_consistent|].
  exact (resize_keeps_most_recent 1 _ H1 full_cache_consistent).
Defined.

Lemma keys_stay_distinct_witness :
  exists c,
    after_all (create (Key := Z) 2)
      [CallPut 1 "a"%string 0; CallPut 1 "b"%string 1; CallGet 1 2;
       CallPut 2 "c"%string 3; CallPut 3 "d"%string 4; CallRemove 9] = Some c
    /\ NoDup (keys c)
    /\ (forall k, contains k c = true <-> k ∈ keys c)
    /\ size c = Z.of_nat (length (nodeList_ c)).
Proof.
  apply keys_stay_distinct.
  - unfold is_size_t. lia.
  - repeat constructor.
Defined.

End LRUMoreExamples.

(** ** More on the crawl and on [SearchInstant] *)

Section EngineMore.
Import CType Engine.





Lemma tolower_idempotent (c : ascii) : tolower (tolower c) = tolower c.
Proof. destruct c as [[] [] [] [] [] [] [] []]; reflexivity. Qed.

Lemma transform_tolower_idempotent (s : string) :
  transform_tolower (transform_tolower s) = transform_tolower s.
Proof.
  induction s as [|c s IH]; [reflexivity|].
  cbn. now rewrite tolower_idempotent, IH.
Qed.

Lemma SearchInstant_lowered (query : string) (m_fileIndex : list FileInfo) :
  SearchInstant query m_fileIndex
  = SearchInstant (transform_tolower query) m_fileIndex.
Proof.
  unfold SearchInstant. rewrite transform_tolower_idempotent.
  destruct query as [|c query]; [reflexivity|].
  cbn [transform_tolower empty orb String.length].
  now repeat match goal with
             | |- context [Z.of_nat (S ?n) <? 1] =>
                 destruct (Z.ltb_spec (Z.of_nat (S n)) 1); [lia|]
             end.
Qed.

(** The case of the query does not matter: two queries with the same
    lower-case form get the same results. *)
Theorem SearchInstant_ignores_query_case
        (query1 query2 : string) (m_fileIndex : list FileInfo) :
  transform_tolower query1 = transform_tolower query2 ->
  SearchInstant query1 m_fileIndex = SearchInstant query2 m_fileIndex.
Proof.
  intros Hq.
  rewrite (SearchInstant_lowered query1), (SearchInstant_lowered query2).
  now rewrite Hq.
Qed.

Lemma SearchInstant_ignores_query_case_witness :
  let index := [ {| path := "C:\docs\ReadMe.md"; name := "ReadMe.md";
                    lowerName := "readme.md"; size := 12 |} ]%string in
  transform_tolower "README" = transform_tolower "readme"
  /\ SearchInstant "README" index = SearchInstant "readme" index
  /\ SearchInstant "readme" index = [ "C:\docs\ReadMe.md" ]%string.
Proof.
  split; [reflexivity|]. split; [|reflexivity].
  exact (SearchInstant_ignores_query_case "README" "readme" _ eq_refl).
Defined.

Lemma lor_shiftl_32 (high low : Z) :
  0 <= low < 2 ^ 32 ->
  Z.lor (Z.shiftl high 32) low = high * 2 ^ 32 + low.
Proof.
  intros Hlow. rewrite Z.shiftl_mul_pow2 by lia.
  assert (Hdisjoint : Z.land (high * 2 ^ 32) low = 0).
  { apply Z.bits_inj'. intros n Hn. rewrite Z.land_spec, Z.bits_0.
    destruct (Z.lt_ge_cases n 32) as [Hlt|Hge].
    - now rewrite Z.mul_pow2_bits_low.
    - destruct (Z.eq_dec low 0) as [->|Hnz].
      + now rewrite Z.bits_0, andb_false_r.
      + rewrite (Z.bits_above_log2 low n), andb_false_r; [reflexivity|lia|].
        apply Z.lt_le_trans with 32; [|exact Hge].
        apply Z.log2_lt_pow2; lia. }
  rewrite <- Z.lxor_lor by exact Hdisjoint.
  symmetry. now apply Z.add_nocarry_lxor.
Qed.

(** The size of an indexed file is put together from the two 32-bit halves
    the directory listing gives, and both halves can be read back from it. *)
Theorem add_file_size (fullPath : string) (findData : WIN32_FIND_DATAA)
        (ix : Index) :
  0 <= nFileSizeLow findData < 2 ^ 32 ->
  exists file,
    m_fileIndex (add_file fullPath findData ix) = m_fileIndex ix ++ [file]
    /\ size file = nFileSizeHigh findData * 2 ^ 32 + nFileSizeLow findData
    /\ size file mod 2 ^ 32 = nFileSizeLow findData
    /\ size file / 2 ^ 32 = nFileSizeHigh findData.
Proof.
  intros Hlow. eexists. split; [reflexivity|]. cbn [size].
  rewrite (lor_shiftl_32 _ _ Hlow). split; [reflexivity|]. split.
  - rewrite Z.add_comm, Z_mod_plus_full. now apply Z.mod_small.
  - rewrite Z.add_comm, Z_div_plus_full by lia.
    rewrite Z.div_small by lia. lia.
Qed.

Lemma add_file_size_witness :
  let findData := {| dwFileAttributes := 32; nFileSizeHigh := 1;
                     nFileSizeLow := 5; cFileName := "big.iso" |} in
  let ix := {| m_fileIndex := []; m_indexedFiles := 0 |} in
  0 <= nFileSizeLow findData < 2 ^ 32
  /\ exists file,
       m_fileIndex (add_file "D:\big.iso" findData ix) = [file]
       /\ size file = 1 * 2 ^ 32 + 5
       /\ size file mod 2 ^ 32 = 5
       /\ size file / 2 ^ 32 = 1.
Proof.
  assert (Hlow : 0 <= 5 < 2 ^ 32) by lia.
  split; [exact Hlow|].
  exact (add_file_size "D:\big.iso"
           {| dwFileAttributes := 32; nFileSizeHigh := 1;
              nFileSizeLow := 5; cFileName := "big.iso" |}
           {| m_fileIndex := []; m_indexedFiles := 0 |} Hlow).
Defined.

(** *** The drives [IndexAllDrivesParallel] starts workers for *)

Lemma drive_present_testbit (drives i : Z) :
  0 <= i -> drive_present drives i = Z.testbit drives i.
Proof.
  intros Hi. unfold drive_present. rewrite Z.shiftl_1_l.
  destruct (Z.testbit drives i) eqn:Hbit.
  - apply negb_true_iff, Z.eqb_neq. intros Hzero.
    assert (Hand : Z.testbit (Z.land drives (2 ^ i)) i = true)
      by (rewrite Z.land_spec, Hbit, Z.pow2_bits_true; [reflexivity | lia]).
    rewrite Hzero, Z.bits_0 in Hand. discriminate.
  - apply negb_false_iff, Z.eqb_eq. apply Z.bits_inj'. intros n Hn.
    rewrite Z.land_spec, Z.bits_0, Z.pow2_bits_eqb by lia.
    destruct (Z.eqb_spec i n) as [->|Hne];
      [now rewrite Hbit | now rewrite andb_false_r].
Qed.

Lemma letters_range (i : Z) : In i letters <-> 0 <= i < 26.
Proof.
  unfold letters. rewrite in_map_iff. split.
  - intros (n & <- & Hn). apply in_seq in Hn. lia.
  - intros Hi. exists (Z.to_nat i). split; [lia|]. apply in_seq. lia.
Qed.

Lemma drive_letter_code (i : Z) :
  0 <= i < 26 -> N_of_ascii (drive_letter i) = Z.to_N (65 + i).
Proof.
  intros Hi. unfold drive_letter. apply N_ascii_embedding. lia.
Qed.

Lemma drive_root_injective (i j : Z) :
  0 <= i < 26 -> 0 <= j < 26 -> drive_root i = drive_root j -> i = j.
Proof.
  intros Hi Hj Heq. unfold drive_root in Heq. injection Heq as Hletter.
  apply (f_equal N_of_ascii) in Hletter.
  rewrite !drive_letter_code in Hletter by assumption. lia.
Qed.

Lemma is_floppy_iff (i : Z) :
  0 <= i < 26 -> is_floppy (drive_letter i) = true <-> i = 0 \/ i = 1.
Proof.
  intros Hi. unfold is_floppy.
  rewrite orb_true_iff, !Ascii.eqb_eq. split.
  - intros [Hl|Hl]; apply (f_equal N_of_ascii) in Hl;
      rewrite drive_letter_code in Hl by assumption; cbn in Hl; lia.
  - intros [->| ->]; [left | right]; reflexivity.
Qed.

Lemma totalDrives_counts (drives : Z) (ls : list Z) (total : Z) :
  fold_left (fun total i =>
               if drive_present drives i
               then (if negb (is_floppy (drive_letter i)) then total + 1
                     else total)
               else total) ls total
  = total
    + Z.of_nat
        (length
           (flat_map (fun i =>
                        if drive_present drives i && negb false
                        then (if negb (is_floppy (drive_letter i))
                              then [drive_root i] else [])
                        else []) ls)).
Proof.
  revert total. induction ls as [|i ls IH]; intros total; cbn [fold_left flat_map].
  - cbn. lia.
  - rewrite IH, length_app. rewrite andb_true_r.
    destruct (drive_present drives i); [|cbn; lia].
    destruct (negb (is_floppy (drive_letter i))); cbn; lia.
Qed.

(** Which drives are crawled: never [A:] nor [B:]; any other letter exactly
    when its bit is set in the drive mask; as many workers as the count
    announced in the status line; none at all once the stop flag is set. *)
Theorem worker_roots_are_the_fixed_drives (drives : Z) :
  (forall stop i, i = 0 \/ i = 1 -> ~ In (drive_root i) (worker_roots drives stop))
  /\ (forall i, 2 <= i < 26 ->
        In (drive_root i) (worker_roots drives false)
        <-> Z.testbit drives i = true)
  /\ Z.of_nat (length (worker_roots drives false)) = totalDrives drives
  /\ worker_roots drives true = [].
Proof.
  split; [|split; [|split]].
  - intros stop i Hfloppy Hin. unfold worker_roots in Hin.
    apply in_flat_map in Hin as (j & Hj & Hin). apply letters_range in Hj.
    destruct (drive_present drives j && negb stop); [|contradiction].
    destruct (is_floppy (drive_letter j)) eqn:Ej; cbn in Hin; [contradiction|].
    destruct Hin as [Heq|[]].
    apply drive_root_injective in Heq; [|lia|lia]. subst j.
    apply (is_floppy_iff i ltac:(lia)) in Hfloppy. congruence.
  - intros i Hi. unfold worker_roots. rewrite in_flat_map. split.
    + intros (j & Hj & Hin). apply letters_range in Hj.
      rewrite andb_true_r, (drive_present_testbit drives j) in Hin by lia.
      destruct (Z.testbit drives j) eqn:Hbit; [|contradiction].
      destruct (is_floppy (drive_letter j)); cbn in Hin; [contradiction|].
      destruct Hin as [Heq|[]].
      apply drive_root_injective in Heq; [|lia|lia]. now subst j.
    + intros Hbit. exists i. split; [apply letters_range; lia|].
      rewrite andb_true_r, (drive_present_testbit drives i), Hbit by lia.
      destruct (is_floppy (drive_letter i)) eqn:Ef; [|now left].
      apply (is_floppy_iff i ltac:(lia)) in Ef. lia.
  - unfold totalDrives. rewrite totalDrives_counts. reflexivity.
  - unfold worker_roots. induction letters as [|i ls IH]; [reflexivity|].
    cbn [flat_map]. rewrite andb_false_r. exact IH.
Qed.

End EngineMore.
